(** * Check orchestration of the PHPStan language server

    A shallow embedding of [server/src/lib/phpstan/manager.ts]
    (class [PHPStanCheckManager]) and of the hover provider
    ([createHoverProvider], [HoverProviderCheckHooks]), with the
    properties the specification states about them.

    JavaScript runs the manager on one thread: every method body is a
    sequence of synchronous sections separated by [await].  The embedding
    gives one state transformer per synchronous section and lets a trace
    of events decide how the sections of different calls interleave. *)

From Stdlib Require Import Ascii.
From stdpp Require Import base strings gmap list numbers.

Local Open Scope string_scope.
Local Open Scope list_scope.

(** ** Collaborators that the manager only talks to *)

Inductive CheckType := File | Project.

(** Modelled from the spec: [OperationStatus] of shared/statusBar is not
    among the sources; the progress surface finishes with a status in
    {success, error, killed}. *)
Inductive OperationStatus := SUCCESS | ERROR | KILLED.

Record PHPStanError := { message : string }.

(** Modelled from the spec: [ReturnResult] of ./result is not among the
    sources.  A result carries its status and, when successful, the
    errors found per file; [ReturnResult.killed()] is the distinguished
    result of a check that was stopped. *)
Record ReturnResult := {
  status : OperationStatus;
  value : gmap string (list PHPStanError)
}.

Definition ReturnResult_killed : ReturnResult :=
  {| status := KILLED; value := ∅ |}.

Definition success (r : ReturnResult) : bool :=
  match status r with SUCCESS => true | _ => false end.

(** The fields of the configuration that [_checkShared] reads. *)
Record Config := {
  timeout : Z;
  projectTimeout : Z;
  suppressTimeoutMessage : bool
}.

(** Modelled from the spec: [PHPStanCheck] of ./check is not among the
    sources.  The manager creates a runner for a scope and may dispose
    it; disposal is idempotent. *)
Record PHPStanCheck := {
  checkType : CheckType;
  disposed : bool
}.

(** ** The manager's own data *)

Record CheckOperation := {
  check : nat;                      (* the runner, by identity *)
  hashes : gmap string string       (* the digests by key, read through
                                       [hashes_get] below *)
}.

(** [RecursivePromiseObject = PromiseObject<RecursivePromiseObject> | null]:
    a promise cell is pending or was resolved once, with the next cell of
    the chain or with [null]. *)
Inductive cell := Pending | Resolved (next : option nat).

(** The [Promise<void>] handed to [_withRecursivePromise]: the promise of
    a [_checkShared] call, or any other promise. *)
Inductive op := TaskOp (t : nat) | ExtOp (n : nat).

(** Where a [_checkShared] call is suspended. *)
Inductive stage :=
| AwaitStart                         (* await operation.start(...) *)
| AwaitConfig                        (* await getConfiguration(...) *)
| AwaitRace (deadline : Z)           (* await runningCheck.promise *)
| AwaitKilledFinish                  (* onTimeout: await operation.finish(KILLED) *)
| AwaitFinish (result : ReturnResult)(* await operation.finish(result.status) *)
| Finished
| Failed.

Record task := {
  t_check : nat;
  t_type : CheckType;
  t_applyErrors : bool;
  t_description : string;
  t_stage : stage
}.

(** Calls the manager makes on its collaborators, in the order made. *)
Inductive effect :=
| CheckCreated (c : nat) (ty : CheckType)
| CheckDisposed (c : nat)
| CheckStarted (c : nat) (applyErrors : bool)
| ProgressSubscribed (c : nat)
| Logged (c : nat) (msg : string)
| LoggedResult (c : nat) (msg : string) (errors : gmap string (list string))
| StatusStart (t : nat) (label : string)
| StatusFinish (t : nat) (s : OperationStatus)
| TimerArmed (t : nat) (ms : Z)
| TimeoutNotice (c : nat)
| ReportCleared.

Record manager := {
  _operation : option CheckOperation;
  _filePromises : gmap string nat;
  _disposables : list nat;
  promises : list cell;             (* objects made by createPromise *)
  thens : list (op * nat);          (* operation.then(() => promise.resolve(null)) *)
  settled : gmap nat bool;          (* outcome of the promises [ExtOp n] *)
  checks : list PHPStanCheck;       (* runners made by new PHPStanCheck *)
  tasks : list task;                (* _checkShared calls *)
  effects : list effect
}.

Definition PROJECT_CHECK_STR : string := "__project__".

(** [new PHPStanCheckManager(config)]. *)
Definition new_manager : manager :=
  {| _operation := None; _filePromises := ∅; _disposables := [];
     promises := []; thens := []; settled := ∅; checks := []; tasks := [];
     effects := [] |}.

Definition set_operation (o : option CheckOperation) (m : manager) : manager :=
  {| _operation := o; _filePromises := _filePromises m;
     _disposables := _disposables m; promises := promises m;
     thens := thens m; settled := settled m; checks := checks m;
     tasks := tasks m; effects := effects m |}.

Definition set_filePromises (f : gmap string nat) (m : manager) : manager :=
  {| _operation := _operation m; _filePromises := f;
     _disposables := _disposables m; promises := promises m;
     thens := thens m; settled := settled m; checks := checks m;
     tasks := tasks m; effects := effects m |}.

Definition set_disposables (d : list nat) (m : manager) : manager :=
  {| _operation := _operation m; _filePromises := _filePromises m;
     _disposables := d; promises := promises m;
     thens := thens m; settled := settled m; checks := checks m;
     tasks := tasks m; effects := effects m |}.

Definition set_promises (h : list cell) (m : manager) : manager :=
  {| _operation := _operation m; _filePromises := _filePromises m;
     _disposables := _disposables m; promises := h;
     thens := thens m; settled := settled m; checks := checks m;
     tasks := tasks m; effects := effects m |}.

Definition set_thens (r : list (op * nat)) (m : manager) : manager :=
  {| _operation := _operation m; _filePromises := _filePromises m;
     _disposables := _disposables m; promises := promises m;
     thens := r; settled := settled m; checks := checks m;
     tasks := tasks m; effects := effects m |}.

Definition set_settled (s : gmap nat bool) (m : manager) : manager :=
  {| _operation := _operation m; _filePromises := _filePromises m;
     _disposables := _disposables m; promises := promises m;
     thens := thens m; settled := s; checks := checks m;
     tasks := tasks m; effects := effects m |}.

Definition set_checks (c : list PHPStanCheck) (m : manager) : manager :=
  {| _operation := _operation m; _filePromises := _filePromises m;
     _disposables := _disposables m; promises := promises m;
     thens := thens m; settled := settled m; checks := c;
     tasks := tasks m; effects := effects m |}.

Definition set_tasks (t : list task) (m : manager) : manager :=
  {| _operation := _operation m; _filePromises := _filePromises m;
     _disposables := _disposables m; promises := promises m;
     thens := thens m; settled := settled m; checks := checks m;
     tasks := t; effects := effects m |}.

Definition emit (es : list effect) (m : manager) : manager :=
  {| _operation := _operation m; _filePromises := _filePromises m;
     _disposables := _disposables m; promises := promises m;
     thens := thens m; settled := settled m; checks := checks m;
     tasks := tasks m; effects := effects m ++ es |}.

(** ** Promise cells *)

(** Modelled from the spec: [createPromise] of shared/util is not among
    the sources.  It makes a fresh, single-resolution future together with
    its [resolve] function; resolving a future that is already resolved
    does nothing. *)
Definition createPromise (h : list cell) : list cell * nat :=
  (h ++ [Pending], length h).

Definition resolve (p : nat) (v : option nat) (h : list cell) : list cell :=
  match h !! p with
  | Some Pending => <[p := Resolved v]> h
  | _ => h
  end.

(** Outcome of a [Promise<void>]: [Some true] fulfilled, [Some false]
    rejected, [None] still pending. *)
Definition outcome (m : manager) (o : op) : option bool :=
  match o with
  | TaskOp t =>
      match t_stage <$> tasks m !! t with
      | Some Finished => Some true
      | Some Failed => Some false
      | _ => None
      end
  | ExtOp n => settled m !! n
  end.

Definition fulfilled (m : manager) (o : op) : bool :=
  match outcome m o with Some true => true | _ => false end.

(** ** [_withRecursivePromise] and [_getFilePromise] *)

(** The section of [_withRecursivePromise] that runs once
    [await createPromise()] has returned. *)
Definition _withRecursivePromise (uri : string) (operation : op) (m : manager)
  : manager :=
  let '(h, promise) := createPromise (promises m) in
  let h := match _filePromises m !! uri with
           | Some prevPromise => resolve prevPromise (Some promise) h
           | None => h
           end in
  set_thens (thens m ++ [(operation, promise)])
    (set_filePromises (<[uri := promise]> (_filePromises m))
       (set_promises h m)).

(** The callback registered by [operation.then]: it runs only once the
    operation is fulfilled, and resolves the cell with [null]. *)
Definition run_then (k : nat) (m : manager) : manager :=
  match thens m !! k with
  | Some (o, promise) =>
      if fulfilled m o then set_promises (resolve promise None (promises m)) m
      else m
  | None => m
  end.

(** What an [async] caller of [_getFilePromise] holds: the returned
    promise is resolved, or its loop is suspended on a cell. *)
Inductive awaiting := Returned | Awaits (p : nat).

(** The call itself: the [has] test and the first [get]. *)
Definition _getFilePromise (uri : string) (m : manager) : awaiting :=
  match _filePromises m !! uri with
  | None => Returned
  | Some obj => Awaits obj
  end.

(** The [do obj = await obj.promise while (obj !== null)] loop, run as
    far as the cells of [h] allow. *)
Fixpoint drain (fuel : nat) (h : list cell) (obj : nat) : awaiting :=
  match fuel with
  | O => Awaits obj
  | S fuel' =>
      match h !! obj with
      | Some (Resolved None) => Returned
      | Some (Resolved (Some next)) => drain fuel' h next
      | _ => Awaits obj
      end
  end.

(** The state of a waiter when the manager has reached state [m]. *)
Definition resume (m : manager) (w : awaiting) : awaiting :=
  match w with
  | Returned => Returned
  | Awaits p => drain (S (length (promises m))) (promises m) p
  end.

(** ** The manager's methods *)

(** JavaScript truthiness of a string. *)
Definition truthy (s : string) : bool :=
  match s with EmptyString => false | String _ _ => true end.

(** ** Plain objects used as maps *)

(** The names that every plain object inherits from [Object.prototype]. *)
Definition Object_prototype_members : list string :=
  ["constructor"; "__defineGetter__"; "__defineSetter__"; "hasOwnProperty";
   "__lookupGetter__"; "__lookupSetter__"; "isPrototypeOf";
   "propertyIsEnumerable"; "toString"; "valueOf"; "__proto__";
   "toLocaleString"].

Definition inherited_member (key : string) : bool :=
  existsb (String.eqb key) Object_prototype_members.

(** What [object[key]] reads on a plain object: the value of its own
    property, else the member it inherits under that name (a function,
    or for [__proto__] the prototype itself: truthy, and no string), else
    [undefined]. *)
Inductive member (A : Type) := Own (a : A) | Inherited | Missing.
Arguments Own {A} a.
Arguments Inherited {A}.
Arguments Missing {A}.

Definition js_get {A} (object : gmap string A) (key : string) : member A :=
  match object !! key with
  | Some a => Own a
  | None => if inherited_member key then Inherited else Missing
  end.

(** [hashes[uri]] on the object that [_checkShared] fills by
    [hashes[uri] = basicHash(content)].  That assignment stores nothing
    for the key [__proto__] (it runs the setter of [Object.prototype],
    which ignores a string), so this key reads as the inherited member
    whatever the documents held. *)
Definition hashes_get (hashes : gmap string string) (uri : string)
  : member string :=
  if String.eqb uri "__proto__" then Inherited else js_get hashes uri.

Section Manager.

(** [basicHash] of shared/util is not among the sources: the digest is a
    parameter of the development. *)
Variable basicHash : string → string.

Definition dispose_check (c : nat) (m : manager) : manager :=
  emit [CheckDisposed c]
    (set_checks
       (alter (λ k, {| checkType := checkType k; disposed := true |}) c
          (checks m)) m).

(** [_checkShared] up to its first [await]: the runner is made, the open
    documents are hashed, the operation is installed and the status bar
    operation is started. *)
Definition _checkShared_begin (ty : CheckType) (applyErrors : bool)
    (description descriptionShort : string) (docs : gmap string string)
    (m : manager) : manager * nat :=
  let c := length (checks m) in
  let t := length (tasks m) in
  let m := set_checks (checks m ++ [{| checkType := ty; disposed := false |}]) m in
  let m := emit [CheckCreated c ty;
                 Logged c ("Check started for " +:+ description)] m in
  let hashes := basicHash <$> docs in
  let m := set_operation (Some {| check := c; hashes := hashes |}) m in
  let m := emit [StatusStart t ("Checking " +:+ descriptionShort)] m in
  (set_tasks (tasks m ++ [{| t_check := c; t_type := ty;
                             t_applyErrors := applyErrors;
                             t_description := description;
                             t_stage := AwaitStart |}]) m, t).

Definition set_stage (t : nat) (s : stage) (m : manager) : manager :=
  set_tasks
    (alter (λ k, {| t_check := t_check k; t_type := t_type k;
                    t_applyErrors := t_applyErrors k;
                    t_description := t_description k;
                    t_stage := s |}) t (tasks m)) m.

Definition _toErrorMessageMap (result : ReturnResult)
  : gmap string (list string) :=
  if success result then (λ errs : list PHPStanError, message <$> errs) <$> value result
  else ∅.

(** Which of the two promises of the guard settles first. *)
Inductive race := OperationFirst (r : ReturnResult) | TimerFirst.

(** Modelled from the spec: [withTimeout] of shared/util is not among the
    sources.  It races the operation against a timer: if the operation
    settles first its result is passed on untouched; if the timer fires
    first the guard does nothing but run [onTimeout] and pass on what
    that returns. *)
Definition withTimeout {A} (first : race) (onSettled : ReturnResult → A)
    (onTimeout : A) : A :=
  match first with
  | OperationFirst r => onSettled r
  | TimerFirst => onTimeout
  end.

(** What wakes a suspended [_checkShared] call. *)
Inductive input :=
| Resumed                           (* the awaited status bar call is done *)
| GotConfig (config : Config)       (* getConfiguration resolved *)
| Raced (first : race)              (* the guarded check or its timer *)
| Rejected.                         (* the awaited promise rejected *)

(** [const result = await runningCheck.promise] has a value:
    [operation.finish(result.status)] is called and awaited. *)
Definition finish_with (t : nat) (result : ReturnResult) (m : manager)
  : manager :=
  set_stage t (AwaitFinish result) (emit [StatusFinish t (status result)] m).

(** The [onTimeout] handler up to its [await]. *)
Definition onTimeout (t : nat) (k : task) (m : manager) : manager :=
  set_stage t AwaitKilledFinish
    (emit [TimeoutNotice (t_check k); StatusFinish t KILLED]
       (dispose_check (t_check k) m)).

(** One synchronous section of the [_checkShared] call [t]. *)
Definition _checkShared_step (t : nat) (i : input) (m : manager) : manager :=
  match tasks m !! t with
  | None => m
  | Some k =>
      match t_stage k, i with
      | AwaitStart, Resumed =>
          set_stage t AwaitConfig (emit [ProgressSubscribed (t_check k)] m)
      | AwaitConfig, GotConfig config =>
          let deadline := match t_type k with
                          | File => timeout config
                          | Project => projectTimeout config
                          end in
          set_stage t (AwaitRace deadline)
            (set_disposables (_disposables m ++ [t])
               (emit [CheckStarted (t_check k) (t_applyErrors k);
                      TimerArmed t deadline] m))
      | AwaitRace _, Raced first =>
          withTimeout first (λ r, finish_with t r m) (onTimeout t k m)
      | AwaitKilledFinish, Resumed => finish_with t ReturnResult_killed m
      | AwaitFinish result, Resumed =>
          set_stage t Finished
            (emit [LoggedResult (t_check k)
                     ("Check completed for " +:+ t_description k)
                     (_toErrorMessageMap result)] m)
      | (AwaitStart | AwaitConfig | AwaitRace _ | AwaitKilledFinish
         | AwaitFinish _), Rejected => set_stage t Failed m
      | _, _ => m
      end
  end.

(** [checkProject] up to the call of [_withRecursivePromise]. *)
Definition kill_current (m : manager) : manager :=
  match _operation m with
  | Some o => set_operation None (dispose_check (check o) m)
  | None => m
  end.

Definition checkProject_begin (docs : gmap string string) (m : manager)
  : manager * nat :=
  _checkShared_begin Project true "Project" "project" docs (kill_current m).

(** [checkProject] with no other section running between its own. *)
Definition checkProject (docs : gmap string string) (m : manager)
  : manager * awaiting :=
  let '(m, t) := checkProject_begin docs m in
  let m := _withRecursivePromise PROJECT_CHECK_STR (TaskOp t) m in
  (m, _getFilePromise PROJECT_CHECK_STR m).

Definition checkProjectIfFileChanged (uri : string)
    (fileContent : option string) (docs : gmap string string) (m : manager)
  : manager * awaiting :=
  match _operation m with
  | None => checkProject docs m
  | Some o =>
      match fileContent with
      | None => (m, Returned)
      | Some content =>
          if negb (truthy content) then (m, Returned)
          else
            match hashes_get (hashes o) uri with
            | Own h =>
                if truthy h && negb (String.eqb h (basicHash content))
                then checkProject docs m
                else (m, Returned)
            | Inherited => checkProject docs m
            | Missing => (m, Returned)
            end
      end
  end.

Definition dispose (m : manager) : manager :=
  set_operation None
    (match _operation m with
     | Some o => dispose_check (check o) m
     | None => m
     end).

Definition clear (m : manager) : manager :=
  emit [ReportCleared] (dispose m).

(** ** Traces *)

(** What can happen to a manager, one synchronous section at a time.
    [CallCheckProject] is a call of [checkProject] whose chain step runs
    right after its synchronous part; [BeginCheckProject] is that
    synchronous part alone, for runs in which other sections come before
    the chain step, which is then a [Chain] event of its own. *)
Inductive event :=
| Chain (uri : string) (o : op)      (* _withRecursivePromise(uri, o) *)
| Settle (n : nat) (ok : bool)       (* the promise [ExtOp n] settles *)
| Then (k : nat)                     (* the k-th [then] callback is due *)
| BeginCheckProject (docs : gmap string string)
| CallCheckProject (docs : gmap string string)
| CallCheckProjectIfFileChanged (uri : string) (content : option string)
    (docs : gmap string string)
| CallClear
| CallDispose
| Step (t : nat) (i : input).

Definition settle (n : nat) (ok : bool) (m : manager) : manager :=
  match settled m !! n with
  | None => set_settled (<[n := ok]> (settled m)) m
  | Some _ => m
  end.

Definition exec (ev : event) (m : manager) : manager :=
  match ev with
  | Chain uri o => _withRecursivePromise uri o m
  | Settle n ok => settle n ok m
  | Then k => run_then k m
  | BeginCheckProject docs => fst (checkProject_begin docs m)
  | CallCheckProject docs => fst (checkProject docs m)
  | CallCheckProjectIfFileChanged uri content docs =>
      fst (checkProjectIfFileChanged uri content docs m)
  | CallClear => clear m
  | CallDispose => dispose m
  | Step t i => _checkShared_step t i m
  end.

Fixpoint run (tr : list event) (m : manager) : manager :=
  match tr with
  | [] => m
  | ev :: tr' => run tr' (exec ev m)
  end.

(** Whether [checkProjectIfFileChanged] hands over to [checkProject]. *)
Definition delegates (uri : string) (fileContent : option string)
    (m : manager) : bool :=
  match _operation m, fileContent with
  | None, _ => true
  | Some o, Some content =>
      truthy content &&
      match hashes_get (hashes o) uri with
      | Own h => truthy h && negb (String.eqb h (basicHash content))
      | Inherited => true
      | Missing => false
      end
  | Some _, None => false
  end.

(** The operation an event chains, and on which key. *)
Definition chain_of (ev : event) (m : manager) : option (string * op) :=
  match ev with
  | Chain uri o => Some (uri, o)
  | CallCheckProject _ => Some (PROJECT_CHECK_STR, TaskOp (length (tasks m)))
  | CallCheckProjectIfFileChanged uri content _ =>
      if delegates uri content m
      then Some (PROJECT_CHECK_STR, TaskOp (length (tasks m)))
      else None
  | _ => None
  end.

(** The operations chained on [uri] along a trace, oldest first. *)
Fixpoint chained (uri : string) (tr : list event) (m : manager) : list op :=
  match tr with
  | [] => []
  | ev :: tr' =>
      match chain_of ev m with
      | Some (uri', o) =>
          if decide (uri' = uri) then o :: chained uri tr' (exec ev m)
          else chained uri tr' (exec ev m)
      | None => chained uri tr' (exec ev m)
      end
  end.

End Manager.

(** ** The hover provider *)

Record Pos := { line : Z; char : Z }.

Record Range := { start : Pos; end_ : Pos }.

Record VariableData := {
  typeDescription : string;
  name : string;
  pos : Range
}.

Record FileReport := {
  timestamp : Z;
  data : list VariableData
}.

Abbreviation ReporterFile := (gmap string FileReport).

(** The fields of [HoverParams] that the handler reads. *)
Record HoverParams := {
  textDocument_uri : string;
  position_line : Z;
  position_character : Z
}.

Record Hover := { contents : list string }.

(** How an [async] function ends: with a value or by throwing. *)
Inductive reply (A : Type) := Ret (a : A) | Throw.
Arguments Ret {A} a.
Arguments Throw {A}.

Inductive wait_result := cancel | checkDone.

(** Modelled from the spec: [waitPeriodical] of shared/util is not among
    the sources.  It polls the callback at a fixed interval for as long as
    the budget lasts and returns its first answer, or [null] when the
    budget runs out first. *)
Fixpoint poll_from {R} (polls : nat) (n : nat) (callback : nat → option R)
  : option R :=
  match polls with
  | O => None
  | S polls' =>
      match callback n with
      | Some r => Some r
      | None => poll_from polls' (S n) callback
      end
  end.

Definition waitPeriodical {R} (totalTime periodTime : nat)
    (callback : nat → option R) : option R :=
  poll_from (S (totalTime / periodTime)) 0 callback.

(** What the handler sees of the outside world, at the moments it looks. *)
Record HoverEnv := {
  getWorkspaceFolder : option string;
  cancelled_on_entry : bool;
  cancelled_at_poll : nat → bool;
  done_at_poll : nat → bool;       (* [promise.done] of the file check *)
  files : gmap string string;      (* what [fs.readFile] finds *)
  cancelled_after_read : bool
}.

(** The test of the [for] loop of the handler. *)
Definition matches (type : VariableData) (hoverParams : HoverParams) : bool :=
  (line (start (pos type)) =? position_line hoverParams)%Z &&
  (char (start (pos type)) <? position_character hoverParams)%Z &&
  (char (end_ (pos type)) >? position_character hoverParams)%Z.

Definition hover_of (type : VariableData) : Hover :=
  {| contents :=
       ["PHPStan: `" +:+ typeDescription type +:+ " $" +:+ name type +:+ "`"] |}.

Fixpoint look_for (records : list VariableData) (hoverParams : HoverParams)
  : option Hover :=
  match records with
  | [] => None
  | type :: rest =>
      if matches type hoverParams then Some (hover_of type)
      else look_for rest hoverParams
  end.

(** A reservation of [HoverProviderCheckHooks._operationMap]. *)
Record reservation := {
  reportPath : string;
  sourceFilePath : string
}.

(** What [_getFileReport] resolves to: [parsed[path]] is the entry of
    the report for the path, else the member of [Object.prototype] that
    the path names, else [undefined]. *)
Inductive report_value :=
| JsNull
| JsUndefined
| JsReport (r : FileReport)
| JsInherited.

Record hooks := {
  _operationMap : gmap string reservation;
  _reports : gmap string report_value
}.

Section Hover.

(** Constants of shared/constants and library functions, not among the
    sources: parameters of the development.  [JSON_parse text] is the
    report object that [JSON.parse] answers, [None] where it answers
    none: it throws, or it answers [null], and [JSON_null text] tells
    that it answered [null].  The entries of a report object have the
    shape of [FileReport], as the code casts them. *)
Variable NO_CANCEL_OPERATIONS : bool.
Variables MAX_HOVER_WAIT_TIME HOVER_WAIT_CHUNK_TIME : nat.
Variable JSON_parse : string → option ReporterFile.
Variable JSON_null : string → bool.
Variable fsPath : string → string.
Variable path_join : string → string → string.

(** The records the handler scans.  A path that names a member of
    [Object.prototype] reads that member, which has no [data]: the scan
    is empty as for a missing entry. *)
Definition records_of (reporterFile : ReporterFile) (hoverParams : HoverParams)
  : list VariableData :=
  match reporterFile !! fsPath (textDocument_uri hoverParams) with
  | Some report => data report
  | None => []
  end.

Definition poll_callback (env : HoverEnv) (n : nat) : option wait_result :=
  if negb NO_CANCEL_OPERATIONS && cancelled_at_poll env n then Some cancel
  else if done_at_poll env n then Some checkDone
  else None.

(** The handler returned by [createHoverProvider]. *)
Definition hoverHandler (env : HoverEnv) (hoverParams : HoverParams)
  : reply (option Hover) :=
  match getWorkspaceFolder env with
  | None => Ret None
  | Some workspaceFolder =>
      if negb (truthy workspaceFolder)
         || (negb NO_CANCEL_OPERATIONS && cancelled_on_entry env)
      then Ret None
      else
        match waitPeriodical MAX_HOVER_WAIT_TIME HOVER_WAIT_CHUNK_TIME
                (poll_callback env) with
        | Some checkDone =>
            match files env !! path_join workspaceFolder "reported.json" with
            | None => Throw
            | Some text =>
                match JSON_parse text with
                | None =>
                    if JSON_null text then
                      (* [reporterFile] is [null]: the member access of
                         the loop throws, after the token was looked at *)
                      if negb NO_CANCEL_OPERATIONS && cancelled_after_read env
                      then Ret None
                      else Throw
                    else Throw
                | Some reporterFile =>
                    if negb NO_CANCEL_OPERATIONS && cancelled_after_read env
                    then Ret None
                    else
                      Ret (look_for (records_of reporterFile hoverParams)
                             hoverParams)
                end
            end
        | _ => Ret None
        end
  end.

(** The last statement of [_getAutoloadFile]. *)
Definition reserve (uri reportPath sourceFilePath : string) (st : hooks)
  : hooks :=
  {| _operationMap :=
       <[uri := {| reportPath := reportPath;
                   sourceFilePath := sourceFilePath |}]> (_operationMap st);
     _reports := _reports st |}.

(** [_getFileReport], reading the file system [fs]. *)
Definition _getFileReport (fs : gmap string string) (uri : string) (st : hooks)
  : hooks * report_value :=
  match _operationMap st !! uri with
  | None => (st, JsNull)
  | Some match_ =>
      let st := {| _operationMap := delete uri (_operationMap st);
                   _reports := _reports st |} in
      match fs !! reportPath match_ with
      | None => (st, JsNull)
      | Some file =>
          match JSON_parse file with
          | None => (st, JsNull)
          | Some parsed =>
              (st, match js_get parsed (sourceFilePath match_) with
                   | Own report => JsReport report
                   | Inherited => JsInherited
                   | Missing => JsUndefined
                   end)
          end
      end
  end.


End Hover.

(** ** Derived notions and sample data *)

(** [frame m m']: the step from [m] to [m'] touched neither the chain map
    nor a cell nor a callback, and un-fulfilled no operation. *)
Definition frame (m m' : manager) : Prop :=
  _filePromises m' = _filePromises m ∧
  promises m' = promises m ∧
  thens m' = thens m ∧
  ∀ o, fulfilled m o = true → fulfilled m' o = true.

(** The operation whose callback resolves the tail cell of [uri]. *)
Definition tail_op (m : manager) (uri : string) : option op :=
  match _filePromises m !! uri with
  | Some p => fst <$> thens m !! p
  | None => None
  end.

Record gate_inv (m : manager) : Prop := {
  inv_len : length (thens m) = length (promises m);
  inv_idx : ∀ k o p, thens m !! k = Some (o, p) → p = k;
  inv_tail : ∀ uri p, _filePromises m !! uri = Some p →
    promises m !! p = Some Pending ∨ promises m !! p = Some (Resolved None);
  inv_inj : ∀ uri1 uri2 p, _filePromises m !! uri1 = Some p →
    _filePromises m !! uri2 = Some p → uri1 = uri2;
  inv_null : ∀ p, promises m !! p = Some (Resolved None) →
    ∃ o, thens m !! p = Some (o, p) ∧ fulfilled m o = true;
  inv_link : ∀ p q, promises m !! p = Some (Resolved (Some q)) →
    p < q < length (promises m)
}.

(** A runner is active from its creation until it is disposed. *)
Definition is_active (m : manager) (c : nat) : bool :=
  match checks m !! c with
  | Some k => negb (disposed k)
  | None => false
  end.

Record slot_inv (m : manager) : Prop := {
  slot_active : ∀ c, is_active m c = true → check <$> _operation m = Some c;
  slot_alloc : ∀ o, _operation m = Some o → check o < length (checks m)
}.

(** Every hash of the active operation is the digest of a document. *)
Definition hashes_inv (basicHash : string → string) (m : manager) : Prop :=
  ∀ o uri h, _operation m = Some o → hashes o !! uri = Some h →
    ∃ content, h = basicHash content.

Definition stage_of (m : manager) (t : nat) : option stage :=
  t_stage <$> tasks m !! t.

(** The interval of a record as the specification words it: from the
    start position, included, to the end position, excluded. *)
Definition pos_le (a b : Pos) : bool :=
  (line a <? line b)%Z || ((line a =? line b)%Z && (char a <=? char b)%Z).

Definition pos_lt (a b : Pos) : bool :=
  (line a <? line b)%Z || ((line a =? line b)%Z && (char a <? char b)%Z).

Definition spec_half_open_contains (type : VariableData)
    (hoverParams : HoverParams) : bool :=
  let q := {| line := position_line hoverParams;
              char := position_character hoverParams |} in
  pos_le (start (pos type)) q && pos_lt q (end_ (pos type)).

(** The record of the scenario: [int $x] from 2:4 to 2:6. *)
Definition sample_record : VariableData :=
  {| typeDescription := "int"; name := "x";
     pos := {| start := {| line := 2; char := 4 |};
               end_ := {| line := 2; char := 6 |} |} |}.

Definition sample_reporterFile : ReporterFile :=
  {[ "/src/a.php" := {| timestamp := 1; data := [sample_record] |} ]}.

Definition sample_query (character : Z) : HoverParams :=
  {| textDocument_uri := "file:///src/a.php"; position_line := 2;
     position_character := character |}.

(** An environment in which the check is seen done at the first poll and
    the report file holds the text ["report"]. *)
Definition sample_env (cancelled_late : bool) : HoverEnv :=
  {| getWorkspaceFolder := Some "/ws";
     cancelled_on_entry := false;
     cancelled_at_poll := λ _, false;
     done_at_poll := λ _, true;
     files := {[ "/ws/reported.json" := "report" ]};
     cancelled_after_read := cancelled_late |}.

Definition sample_parse (text : string) : option ReporterFile :=
  if String.eqb text "report" then Some sample_reporterFile else None.

Definition sample_fsPath (uri : string) : string :=
  if String.eqb uri "file:///src/a.php" then "/src/a.php" else uri.

Definition sample_join (dir file : string) : string := dir +:+ "/" +:+ file.

(** What the loop of the handler tests, as a proposition. *)
Definition strictly_inside (hoverParams : HoverParams) (type : VariableData)
  : Prop :=
  line (start (pos type)) = position_line hoverParams ∧
  (char (start (pos type)) < position_character hoverParams)%Z ∧
  (position_character hoverParams < char (end_ (pos type)))%Z.

#[global] Instance strictly_inside_dec hoverParams type :
  Decision (strictly_inside hoverParams type).
Proof. unfold strictly_inside. apply _. Defined.

Definition set_end_line (l : Z) (type : VariableData) : VariableData :=
  {| typeDescription := typeDescription type; name := name type;
     pos := {| start := start (pos type);
               end_ := {| line := l; char := char (end_ (pos type)) |} |} |}.

(** A digest for the examples: never empty, injective. *)
Definition sample_hash (content : string) : string := "#" +:+ content.

Definition sample_docs : gmap string string :=
  {[ "a.php" := "X"; "b.php" := "Y" ]}.

Definition sample_config : Config :=
  {| timeout := 10000; projectTimeout := 60000;
     suppressTimeoutMessage := false |}.

Definition sample_result : ReturnResult := {| status := SUCCESS; value := ∅ |}.

(** A project check that runs to its end. *)
Definition sample_completion (t : nat) : list event :=
  [Step t Resumed; Step t (GotConfig sample_config);
   Step t (Raced (OperationFirst sample_result)); Step t Resumed; Then t].

Definition sample_hooks : hooks :=
  reserve "file:///src/a.php" "/tmp/reported.json" "/src/a.php"
    {| _operationMap := ∅; _reports := ∅ |}.

Definition sample_fs : gmap string string :=
  {[ "/tmp/reported.json" := "report" ]}.

(** ** [_onTimeout] *)

(** What [_onTimeout] shows and logs.  The message of both is
    [PHPStan check timed out after <ms>ms]; an action of the error opens
    the settings at a key. *)
Inductive notice :=
| ShowError (ms : Z) (actions : list (string * string))
| LogTimedOut (c : nat) (ms : Z).

Definition notice_ms (n : notice) : Z :=
  match n with ShowError ms _ => ms | LogTimedOut _ ms => ms end.

(** [_onTimeout(check)] once [getConfiguration] has answered [config]. *)
Definition _onTimeout (c : nat) (ty : CheckType) (config : Config)
  : list notice :=
  (if suppressTimeoutMessage config then []
   else [ShowError (timeout config)
           [("Adjust timeout",
             match ty with
             | Project => "phpstan.projectCheckTimeout"
             | File => "phpstan.timeout"
             end);
            ("Stop showing this message", "phpstan.suppressTimeoutMessage")]])
  ++ [LogTimedOut c (timeout config)].

(** ** [transformArgs] and [_getAutoloadFile] *)

(** A variable of type [string | null] that may also hold [undefined]. *)
Inductive js_str := JNull | JUndefined | JStr (s : string).

Definition js_truthy (v : js_str) : bool :=
  match v with JStr s => truthy s | _ => false end.

(** [args[i]] of an array of strings. *)
Definition arg_at (args : list string) (i : nat) : js_str :=
  match args !! i with Some s => JStr s | None => JUndefined end.

Definition AUTOLOAD_FLAG : string := "--autoload-file".

(** One turn of the loop of [transformArgs] on [config.args[i]], with
    [next] for [config.args[i + 1]]. *)
Definition autoload_turn (arg : string) (next : js_str)
    (userAutoloadFile : js_str) : js_str :=
  if String.eqb arg "-a" then next
  else if String.prefix AUTOLOAD_FLAG arg then
    match String.get (String.length AUTOLOAD_FLAG) arg with
    | Some "="%char =>
        JStr (String.substring (String.length AUTOLOAD_FLAG + 1)
                (String.length arg - (String.length AUTOLOAD_FLAG + 1)) arg)
    | _ => next
    end
  else userAutoloadFile.

(** The loop of [transformArgs] over the arguments not yet visited. *)
Fixpoint find_autoload (args : list string) (userAutoloadFile : js_str)
  : js_str :=
  match args with
  | [] => userAutoloadFile
  | arg :: rest =>
      find_autoload rest (autoload_turn arg (arg_at rest 0) userAutoloadFile)
  end.

Definition quote : string := String "034" EmptyString.
Definition newline : string := String "010" EmptyString.

(** What the hooks can reach: their own maps, the files, and the
    temporary directories handed over for cleanup. *)
Record world := {
  w_hooks : hooks;
  w_files : gmap string string;
  w_disposables : list string
}.

Section Autoload.

(** [path.join], [path.dirname], [String.prototype.replace] and the
    location of the tree fetcher: parameters. *)
Variable path_join : string → string → string.
Variable path_dirname : string → string.
Variable String_replace : string → string → string → string.
Variable TREE_FETCHER_FILE : string.

Definition autoloadFileContent (userAutoloadFile : js_str)
    (treeFetcherTmpFilePath : string) : string :=
  ("<?php" +:+ newline)
  +:+ match userAutoloadFile with
      | JStr user =>
          if truthy user then
            ("chdir('" +:+ path_dirname user +:+ "');" +:+ newline)
            +:+ ("require_once " +:+ quote +:+ user +:+ quote +:+ ";"
                 +:+ newline)
          else EmptyString
      | _ => EmptyString
      end
  +:+ ("require_once " +:+ quote +:+ treeFetcherTmpFilePath +:+ quote +:+ ";").

(** [_getAutoloadFile], with [tmpDir] for the path that [tmp.dir()]
    answers. *)
Definition _getAutoloadFile (tmpDir uri filePath : string)
    (userAutoloadFile : js_str) (w : world) : world * reply string :=
  let treeFetcherTmpFilePath := path_join tmpDir "TreeFetcher.php" in
  let treeFetcherReportedFilePath := path_join tmpDir "reported.json" in
  let autoloadFilePath := path_join tmpDir "autoload.php" in
  match w_files w !! TREE_FETCHER_FILE with
  | None => (w, Throw)
  | Some text =>
      let treeFetcherContent :=
        String_replace text "reported.json" treeFetcherReportedFilePath in
      let files := <[treeFetcherTmpFilePath := treeFetcherContent]> (w_files w) in
      let files :=
        <[autoloadFilePath :=
            autoloadFileContent userAutoloadFile treeFetcherTmpFilePath]> files in
      ({| w_hooks := reserve uri treeFetcherReportedFilePath filePath (w_hooks w);
          w_files := files;
          w_disposables := w_disposables w ++ [tmpDir] |},
       Ret autoloadFilePath)
  end.

(** [transformArgs]: [config_args] is [config.args], [args] the array
    that is extended and returned. *)
Definition transformArgs (config_args args : list string)
    (tmpDir uri filePath : string) (w : world)
  : world * reply (list string) :=
  let userAutoloadFile := find_autoload config_args JNull in
  match _getAutoloadFile tmpDir uri filePath userAutoloadFile w with
  | (w', Ret autoloadFile) => (w', Ret (args ++ ["-a"; autoloadFile]))
  | (w', Throw) => (w', Throw)
  end.

End Autoload.

(** An argument that the loop of [transformArgs] reacts to. *)
Definition is_autoload_arg (arg : string) : bool :=
  String.eqb arg "-a" || String.prefix AUTOLOAD_FLAG arg.

(** The cells a waiter visits from [p]: [leads h p q] when the links of
    [h] go from [p] to [q]. *)
Inductive leads (h : list cell) : nat → nat → Prop :=
| leads_here p : leads h p p
| leads_step p q r :
    h !! p = Some (Resolved (Some q)) → leads h q r → leads h p r.

(** The outcome of an operation is final once it is there. *)
Definition rejected (m : manager) (o : op) : bool :=
  match outcome m o with Some false => true | _ => false end.

(** The stage a [_checkShared] call is in after a section woken by [i]. *)
Definition stage_after (k : task) (i : input) : stage :=
  match t_stage k, i with
  | AwaitStart, Resumed => AwaitConfig
  | AwaitConfig, GotConfig config =>
      AwaitRace (match t_type k with
                 | File => timeout config
                 | Project => projectTimeout config
                 end)
  | AwaitRace _, Raced (OperationFirst r) => AwaitFinish r
  | AwaitRace _, Raced TimerFirst => AwaitKilledFinish
  | AwaitKilledFinish, Resumed => AwaitFinish ReturnResult_killed
  | AwaitFinish _, Resumed => Finished
  | (AwaitStart | AwaitConfig | AwaitRace _ | AwaitKilledFinish
     | AwaitFinish _), Rejected => Failed
  | s, _ => s
  end.

Definition with_stage (s : stage) (k : task) : task :=
  {| t_check := t_check k; t_type := t_type k;
     t_applyErrors := t_applyErrors k; t_description := t_description k;
     t_stage := s |}.

(** The sections of the [_checkShared] call [t] when every awaited call
    answers, followed by the callback on the cell [p]. *)
Definition check_sections (t p : nat) (config : Config) (first : race)
  : list event :=
  [Step t Resumed; Step t (GotConfig config); Step t (Raced first)]
  ++ match first with
     | TimerFirst => [Step t Resumed]
     | OperationFirst _ => []
     end
  ++ [Step t Resumed; Then p].

(** More sample data. *)
Definition empty_hash (content : string) : string := EmptyString.

Definition sample_dirname (file : string) : string := "/home/me".

Definition sample_replace (text pattern replacement : string) : string := text.

Definition sample_tree_fetcher : string := "/ext/TreeFetcher.php".

Definition sample_world : world :=
  {| w_hooks := {| _operationMap := ∅; _reports := ∅ |};
     w_files := {[ sample_tree_fetcher := "tree fetcher" ]};
     w_disposables := [] |}.

Definition sample_record_far : VariableData :=
  {| typeDescription := "bool"; name := "z";
     pos := {| start := {| line := 7; char := 0 |};
               end_ := {| line := 7; char := 9 |} |} |}.

Definition sample_record_wide : VariableData :=
  {| typeDescription := "string"; name := "y";
     pos := {| start := {| line := 2; char := 0 |};
               end_ := {| line := 2; char := 9 |} |} |}.

(** * Properties *)

(** ** Promise cells are written once *)

Lemma length_resolve p v (h : list cell) : length (resolve p v h) = length h.
Proof.
  unfold resolve. destruct (h !! p) as [[|]|]; auto using length_insert.
Qed.

Lemma resolve_lookup_ne p q v (h : list cell) :
  p ≠ q → resolve p v h !! q = h !! q.
Proof.
  intros Hne. unfold resolve.
  destruct (h !! p) as [[|]|]; auto using list_lookup_insert_ne.
Qed.

Lemma resolve_lookup_eq p v (h : list cell) :
  resolve p v h !! p =
  match h !! p with Some Pending => Some (Resolved v) | c => c end.
Proof.
  unfold resolve. destruct (h !! p) as [[|w]|] eqn:E; try done.
  apply list_lookup_insert_eq. by eapply lookup_lt_Some.
Qed.

Lemma resolve_keeps p q v w (h : list cell) :
  h !! q = Some (Resolved w) → resolve p v h !! q = Some (Resolved w).
Proof.
  intros Hq. destruct (decide (p = q)) as [->|Hne].
  - by rewrite resolve_lookup_eq, Hq.
  - by rewrite resolve_lookup_ne.
Qed.

Lemma resolve_inv p q v c (h : list cell) :
  resolve p v h !! q = Some c →
  h !! q = Some c ∨ (q = p ∧ h !! q = Some Pending ∧ c = Resolved v).
Proof.
  destruct (decide (p = q)) as [->|Hne].
  - rewrite resolve_lookup_eq. destruct (h !! q) as [[|w]|]; naive_solver.
  - rewrite resolve_lookup_ne by done. auto.
Qed.

(** ** The loop of [_getFilePromise] *)

Lemma drain_pending fuel (h : list cell) p :
  h !! p = Some Pending → drain (S fuel) h p = Awaits p.
Proof. intros Hp. simpl. by rewrite Hp. Qed.

Lemma drain_null fuel (h : list cell) p :
  h !! p = Some (Resolved None) → drain (S fuel) h p = Returned.
Proof. intros Hp. simpl. by rewrite Hp. Qed.

Lemma drain_link fuel (h : list cell) p q :
  h !! p = Some (Resolved (Some q)) → drain (S fuel) h p = drain fuel h q.
Proof. intros Hp. simpl. by rewrite Hp. Qed.

(** With links that only point forward, the loop never stops for lack of
    fuel: it returns, or it is suspended on a pending cell. *)
Lemma drain_total (h : list cell) :
  (∀ p q, h !! p = Some (Resolved (Some q)) → p < q < length h) →
  ∀ fuel p, length h < fuel + p → p < length h →
    drain fuel h p = Returned ∨
    ∃ q, drain fuel h p = Awaits q ∧ h !! q = Some Pending.
Proof.
  intros Hfwd fuel. induction fuel as [|fuel IH]; intros p Hfuel Hp; [lia|].
  destruct (lookup_lt_is_Some_2 h p Hp) as [[|[q|]] Hc].
  - right. exists p. by rewrite drain_pending.
  - rewrite (drain_link _ _ _ _ Hc). destruct (Hfwd _ _ Hc). apply IH; lia.
  - left. by apply drain_null.
Qed.

(** ** What a section leaves of the promise chains *)

Lemma frame_refl m : frame m m.
Proof. by repeat split. Qed.

Lemma frame_trans m1 m2 m3 : frame m1 m2 → frame m2 m3 → frame m1 m3.
Proof.
  intros (?&?&?&?) (?&?&?&?). repeat split; try congruence; auto.
Qed.

Lemma gate_inv_new : gate_inv new_manager.
Proof. split; simpl; try done; intros *; by rewrite ?lookup_empty. Qed.

(** The fuel of [resume] is enough: a waiter has returned or is suspended
    on a pending cell. *)
Lemma resume_total m p :
  gate_inv m → p < length (promises m) →
  resume m (Awaits p) = Returned ∨
  ∃ q, resume m (Awaits p) = Awaits q ∧ promises m !! q = Some Pending.
Proof.
  intros I Hp. apply drain_total; [apply (inv_link m I) | lia | done].
Qed.

Lemma gate_inv_frame m m' : frame m m' → gate_inv m → gate_inv m'.
Proof.
  intros (Hf&Hp&Ht&Hful) [I1 I2 I3 I4 I5 I6].
  split; rewrite ?Hf, ?Hp, ?Ht; auto.
  intros p Hc. destruct (I5 p Hc) as (o&?&?). eauto.
Qed.

Lemma fulfilled_chain uri o m o' :
  fulfilled (_withRecursivePromise uri o m) o' = fulfilled m o'.
Proof. by destruct o'. Qed.

Lemma chain_filePromises uri o m :
  _filePromises (_withRecursivePromise uri o m)
  = <[uri := length (promises m)]> (_filePromises m).
Proof. done. Qed.

Lemma chain_thens uri o m :
  thens (_withRecursivePromise uri o m)
  = thens m ++ [(o, length (promises m))].
Proof. done. Qed.

Lemma chain_promises uri o m :
  promises (_withRecursivePromise uri o m)
  = match _filePromises m !! uri with
    | Some prev => resolve prev (Some (length (promises m)))
                     (promises m ++ [Pending])
    | None => promises m ++ [Pending]
    end.
Proof. done. Qed.

Lemma chain_length uri o m :
  length (promises (_withRecursivePromise uri o m)) = S (length (promises m)).
Proof.
  rewrite chain_promises. destruct (_ !! uri);
    rewrite ?length_resolve, length_app; simpl; lia.
Qed.

(** A cell other than the previous tail reads as before; the new cell is
    pending. *)
Lemma chain_lookup uri o m p c :
  gate_inv m →
  promises (_withRecursivePromise uri o m) !! p = Some c →
  (p = length (promises m) ∧ c = Pending) ∨
  promises m !! p = Some c ∨
  (_filePromises m !! uri = Some p ∧ promises m !! p = Some Pending ∧
   c = Resolved (Some (length (promises m)))).
Proof.
  intros I Hc. rewrite chain_promises in Hc.
  assert (Happ : ∀ c', (promises m ++ [Pending]) !! p = Some c' →
            (p = length (promises m) ∧ c' = Pending) ∨ promises m !! p = Some c').
  { intros c' H. apply lookup_app_Some in H as [H|[Hge H]]; [by auto|].
    left. destruct (p - length (promises m)) as [|n] eqn:E; simpl in H; [|done].
    split; [lia | congruence]. }
  destruct (_filePromises m !! uri) as [prev|] eqn:Eprev;
    [|destruct (Happ _ Hc); auto].
  apply resolve_inv in Hc as [Hc|(->&Hc&->)]; [destruct (Happ _ Hc); auto|].
  apply Happ in Hc as [[-> _]|Hc]; [|auto].
  destruct (inv_tail m I _ _ Eprev) as [H|H]; apply lookup_lt_Some in H; lia.
Qed.

Lemma chain_keeps uri o m p v :
  promises m !! p = Some (Resolved v) →
  promises (_withRecursivePromise uri o m) !! p = Some (Resolved v).
Proof.
  intros Hp. rewrite chain_promises.
  assert ((promises m ++ [Pending]) !! p = Some (Resolved v))
    by by apply lookup_app_l_Some.
  destruct (_ !! uri); auto using resolve_keeps.
Qed.

Lemma chain_new_cell uri o m :
  gate_inv m →
  promises (_withRecursivePromise uri o m) !! length (promises m)
  = Some Pending.
Proof.
  intros I. rewrite chain_promises.
  assert (H : (promises m ++ [Pending]) !! length (promises m) = Some Pending).
  { rewrite lookup_app_r by lia. by rewrite Nat.sub_diag. }
  destruct (_filePromises m !! uri) as [prev|] eqn:Eprev; [|done].
  rewrite resolve_lookup_ne; [done|].
  destruct (inv_tail m I _ _ Eprev) as [H'|H']; apply lookup_lt_Some in H'; lia.
Qed.

Lemma gate_inv_chain uri o m :
  gate_inv m → gate_inv (_withRecursivePromise uri o m).
Proof.
  intros I. pose proof I as [I1 I2 I3 I4 I5 I6].
  split.
  - rewrite chain_thens, chain_length, length_app. simpl. lia.
  - intros k o' p. rewrite chain_thens.
    intros [H|[Hge H]]%lookup_app_Some; [eauto|].
    destruct (k - length (thens m)) as [|n] eqn:E; simpl in H; [|done].
    injection H as _ <-. lia.
  - intros uri' p. rewrite chain_filePromises.
    destruct (decide (uri = uri')) as [->|Hne].
    + rewrite lookup_insert_eq. intros [= <-]. left. by apply chain_new_cell.
    + rewrite lookup_insert_ne by done. intros Hp.
      assert (Hlt : p < length (promises m)).
      { destruct (I3 _ _ Hp) as [H|H]; by apply lookup_lt_Some in H. }
      assert (Hsame : promises (_withRecursivePromise uri o m) !! p
                      = promises m !! p).
      { rewrite chain_promises.
        destruct (_filePromises m !! uri) as [prev|] eqn:Eprev.
        - rewrite resolve_lookup_ne; [by apply lookup_app_l|].
          intros ->. apply Hne. eauto.
        - by apply lookup_app_l. }
      rewrite Hsame. eauto.
  - intros uri1 uri2 p. rewrite chain_filePromises.
    destruct (decide (uri = uri1)) as [E1|H1], (decide (uri = uri2)) as [E2|H2];
      subst; rewrite ?lookup_insert_eq, ?lookup_insert_ne by done; try done.
    + intros [= <-] Hp.
      destruct (I3 _ _ Hp) as [H|H]; apply lookup_lt_Some in H; lia.
    + intros Hp [= <-].
      destruct (I3 _ _ Hp) as [H|H]; apply lookup_lt_Some in H; lia.
    + eauto.
  - intros p Hc.
    apply chain_lookup in Hc as [[_ ?]|[Hc|(_&_&?)]]; try done.
    destruct (I5 _ Hc) as (o'&Ht&Hf). exists o'.
    rewrite chain_thens, fulfilled_chain. split; [|done].
    by apply lookup_app_l_Some.
  - intros p q Hc. rewrite chain_length.
    apply chain_lookup in Hc as [[_ ?]|[Hc|(Hp&Hpend&[= ->])]]; try done.
    + apply I6 in Hc. lia.
    + apply lookup_lt_Some in Hpend. lia.
Qed.

Lemma gate_inv_then k m : gate_inv m → gate_inv (run_then k m).
Proof.
  intros I. pose proof I as [I1 I2 I3 I4 I5 I6]. unfold run_then.
  destruct (thens m !! k) as [[o p]|] eqn:Ek; [|done].
  destruct (fulfilled m o) eqn:Ef; [|done].
  assert (p = k) as -> by eauto.
  split; simpl; rewrite ?length_resolve; auto.
  - intros uri p Hp. destruct (decide (k = p)) as [->|Hne].
    + rewrite resolve_lookup_eq.
      destruct (I3 _ _ Hp) as [-> | ->]; auto.
    + rewrite resolve_lookup_ne by done. eauto.
  - intros p Hc. apply resolve_inv in Hc as [Hc|(->&_&_)]; eauto.
  - intros p q Hc. apply resolve_inv in Hc as [Hc|(_&_&?)]; [eauto|done].
Qed.

Lemma then_keeps k m p v :
  promises m !! p = Some (Resolved v) →
  promises (run_then k m) !! p = Some (Resolved v).
Proof.
  intros Hp. unfold run_then.
  destruct (thens m !! k) as [[o q]|]; [|done].
  destruct (fulfilled m o); [|done]. by apply resolve_keeps.
Qed.

Lemma fulfilled_then k m o : fulfilled (run_then k m) o = fulfilled m o.
Proof.
  unfold run_then. destruct (thens m !! k) as [[o' q]|]; [|done].
  destruct (fulfilled m o'); [|done]. by destruct o.
Qed.

(** A step that keeps the chain fields, the outcomes of the outside
    promises and every finished [_checkShared] call is a frame step. *)
Lemma frame_intro m m' :
  _filePromises m' = _filePromises m →
  promises m' = promises m →
  thens m' = thens m →
  settled m' = settled m →
  (∀ t, t_stage <$> tasks m !! t = Some Finished →
        t_stage <$> tasks m' !! t = Some Finished) →
  frame m m'.
Proof.
  intros Hf Hp Ht Hs Hk. repeat split; try done.
  intros [t|n]; unfold fulfilled, outcome; [|by rewrite Hs].
  destruct (t_stage <$> tasks m !! t) as [[]|] eqn:E; try done.
  by rewrite (Hk t E).
Qed.

Lemma frame_settle n ok m : frame m (settle n ok m).
Proof.
  unfold settle. destruct (settled m !! n) eqn:E; [apply frame_refl|].
  repeat split; try done.
  intros [t|n']; unfold fulfilled, outcome; simpl; [done|].
  destruct (decide (n = n')) as [->|Hne]; [by rewrite E|].
  by rewrite lookup_insert_ne.
Qed.

Lemma frame_set_stage t s m k :
  tasks m !! t = Some k → t_stage k ≠ Finished → frame m (set_stage t s m).
Proof.
  intros Hk Hs. apply frame_intro; try done.
  intros t' Ht'. simpl. destruct (decide (t = t')) as [->|Hne].
  - rewrite Hk in Ht'. simpl in Ht'. congruence.
  - by rewrite list_lookup_alter_ne.
Qed.

Lemma frame_dispose_check c m : frame m (dispose_check c m).
Proof. by apply frame_intro. Qed.

Lemma frame_kill_current m : frame m (kill_current m).
Proof. unfold kill_current. destruct (_operation m); by apply frame_intro. Qed.

Lemma frame_dispose m : frame m (dispose m).
Proof. unfold dispose. destruct (_operation m); by apply frame_intro. Qed.

Lemma frame_clear m : frame m (clear m).
Proof. unfold clear, dispose. destruct (_operation m); by apply frame_intro. Qed.

Section ManagerFacts.

Variable basicHash : string → string.

Lemma frame_checkShared_begin ty a d ds docs m :
  frame m (fst (_checkShared_begin basicHash ty a d ds docs m)).
Proof.
  apply frame_intro; try done.
  intros t Ht. simpl.
  destruct (tasks m !! t) as [k|] eqn:Ek; [|done].
  by rewrite (lookup_app_l_Some _ _ _ _ Ek).
Qed.

Lemma frame_checkProject_begin docs m :
  frame m (fst (checkProject_begin basicHash docs m)).
Proof.
  eapply frame_trans; [apply frame_kill_current|].
  apply frame_checkShared_begin.
Qed.

Lemma frame_checkShared_step t i m : frame m (_checkShared_step t i m).
Proof.
  unfold _checkShared_step.
  destruct (tasks m !! t) as [k|] eqn:Ek; [|apply frame_refl].
  assert (Hst : ∀ s m0, t_stage k ≠ Finished →
            tasks m0 = tasks m → _filePromises m0 = _filePromises m →
            promises m0 = promises m → thens m0 = thens m →
            settled m0 = settled m → frame m (set_stage t s m0)).
  { intros s m0 Hne Hk Hf Hp Ht Hs.
    eapply frame_trans; [|apply (frame_set_stage t s m0 k); congruence].
    apply frame_intro; congruence. }
  destruct (t_stage k) eqn:Es, i as [| |[r|]|];
    try apply frame_refl; unfold withTimeout, finish_with, onTimeout;
    apply Hst; done.
Qed.

(** What a call of [checkProject] does to the chains is to chain its own
    [_checkShared] call on the project key. *)
Lemma checkProject_chain docs m :
  fst (checkProject basicHash docs m)
  = _withRecursivePromise PROJECT_CHECK_STR (TaskOp (length (tasks m)))
      (fst (checkProject_begin basicHash docs m)).
Proof.
  unfold checkProject, checkProject_begin, kill_current.
  by destruct (_operation m).
Qed.

Lemma checkProjectIfFileChanged_delegates uri content docs m :
  checkProjectIfFileChanged basicHash uri content docs m
  = if delegates basicHash uri content m then checkProject basicHash docs m
    else (m, Returned).
Proof.
  unfold checkProjectIfFileChanged, delegates.
  destruct (_operation m) as [o|]; [|done].
  destruct content as [content|]; [|done].
  destruct (truthy content); simpl; [|done].
  by destruct (hashes_get (hashes o) uri).
Qed.

(** An event that chains [o] on [uri] is a frame step followed by that
    chain step; any other event is a frame step or a callback. *)
Lemma exec_chain_of ev m :
  match chain_of basicHash ev m with
  | Some (uri, o) =>
      ∃ m', frame m m' ∧ exec basicHash ev m = _withRecursivePromise uri o m'
  | None =>
      frame m (exec basicHash ev m) ∨ ∃ k, exec basicHash ev m = run_then k m
  end.
Proof.
  destruct ev as [uri o|n ok|k|docs|docs|uri content docs| | |t i];
    cbn [exec chain_of].
  - eauto using frame_refl.
  - left. apply frame_settle.
  - eauto.
  - left. apply frame_checkProject_begin.
  - rewrite checkProject_chain. eauto using frame_checkProject_begin.
  - rewrite checkProjectIfFileChanged_delegates.
    destruct (delegates _ _ _ _); [|left; apply frame_refl].
    rewrite checkProject_chain. eauto using frame_checkProject_begin.
  - left. apply frame_clear.
  - left. apply frame_dispose.
  - left. apply frame_checkShared_step.
Qed.

Lemma gate_inv_exec ev m : gate_inv m → gate_inv (exec basicHash ev m).
Proof.
  intros I. pose proof (exec_chain_of ev m) as H.
  destruct (chain_of basicHash ev m) as [[uri o]|].
  - destruct H as (m'&Hf&->). eauto using gate_inv_frame, gate_inv_chain.
  - destruct H as [Hf|[k ->]]; eauto using gate_inv_frame, gate_inv_then.
Qed.

Lemma gate_inv_run tr m : gate_inv m → gate_inv (run basicHash tr m).
Proof.
  revert m. induction tr as [|ev tr IH]; simpl; auto using gate_inv_exec.
Qed.

(** Cells keep their value and operations stay fulfilled. *)
Lemma exec_keeps ev m p v :
  promises m !! p = Some (Resolved v) →
  promises (exec basicHash ev m) !! p = Some (Resolved v).
Proof.
  intros Hp. pose proof (exec_chain_of ev m) as H.
  destruct (chain_of basicHash ev m) as [[uri o]|].
  - destruct H as (m'&(_&Hpr&_)&->). apply chain_keeps. by rewrite Hpr.
  - destruct H as [(_&Hpr&_)|[k ->]]; [by rewrite Hpr|by apply then_keeps].
Qed.

Lemma run_keeps tr m p v :
  promises m !! p = Some (Resolved v) →
  promises (run basicHash tr m) !! p = Some (Resolved v).
Proof.
  revert m. induction tr as [|ev tr IH]; simpl; auto using exec_keeps.
Qed.

Lemma exec_fulfilled ev m o :
  fulfilled m o = true → fulfilled (exec basicHash ev m) o = true.
Proof.
  intros Ho. pose proof (exec_chain_of ev m) as H.
  destruct (chain_of basicHash ev m) as [[uri o']|].
  - destruct H as (m'&(_&_&_&Hf)&->). rewrite fulfilled_chain. auto.
  - destruct H as [(_&_&_&Hf)|[k ->]]; [auto|by rewrite fulfilled_then].
Qed.

Lemma run_fulfilled tr m o :
  fulfilled m o = true → fulfilled (run basicHash tr m) o = true.
Proof.
  revert m. induction tr as [|ev tr IH]; simpl; auto using exec_fulfilled.
Qed.

(** The tail of a key after an event. *)
Lemma tail_op_frame m m' uri : frame m m' → tail_op m' uri = tail_op m uri.
Proof. intros (Hf&_&Ht&_). unfold tail_op. by rewrite Hf, Ht. Qed.

Lemma tail_op_chain uri o m :
  gate_inv m → tail_op (_withRecursivePromise uri o m) uri = Some o.
Proof.
  intros I. unfold tail_op.
  rewrite chain_filePromises, lookup_insert_eq, chain_thens.
  rewrite lookup_app_r by (rewrite (inv_len m I); lia).
  by rewrite (inv_len m I), Nat.sub_diag.
Qed.

Lemma tail_op_chain_ne uri uri' o m :
  gate_inv m → uri ≠ uri' →
  _filePromises (_withRecursivePromise uri o m) !! uri'
  = _filePromises m !! uri' ∧
  tail_op (_withRecursivePromise uri o m) uri' = tail_op m uri'.
Proof.
  intros I Hne. unfold tail_op.
  rewrite chain_filePromises, lookup_insert_ne by done. split; [done|].
  destruct (_filePromises m !! uri') as [p|] eqn:Ep; [|done].
  rewrite chain_thens, lookup_app_l; [done|]. rewrite (inv_len m I).
  destruct (inv_tail m I _ _ Ep) as [H|H]; by apply lookup_lt_Some in H.
Qed.

Lemma exec_tail ev m uri :
  gate_inv m →
  match chain_of basicHash ev m with
  | Some (uri', o) =>
      if decide (uri' = uri)
      then tail_op (exec basicHash ev m) uri = Some o
      else _filePromises (exec basicHash ev m) !! uri
           = _filePromises m !! uri ∧
           tail_op (exec basicHash ev m) uri = tail_op m uri
  | None =>
      _filePromises (exec basicHash ev m) !! uri = _filePromises m !! uri ∧
      tail_op (exec basicHash ev m) uri = tail_op m uri
  end.
Proof.
  intros I. pose proof (exec_chain_of ev m) as H.
  destruct (chain_of basicHash ev m) as [[uri' o]|].
  - destruct H as (m'&Hf&->).
    assert (I' : gate_inv m') by eauto using gate_inv_frame.
    destruct (decide (uri' = uri)) as [->|Hne]; [by apply tail_op_chain|].
    destruct (tail_op_chain_ne uri' uri o m' I' Hne) as [-> ->].
    rewrite (tail_op_frame m m') by done. by destruct Hf as [-> _].
  - destruct H as [Hf|[k ->]].
    + rewrite (tail_op_frame _ _ _ Hf). by destruct Hf as [-> _].
    + unfold tail_op, run_then. destruct (thens m !! k) as [[o q]|]; [|done].
      by destruct (fulfilled m o).
Qed.

(** After a trace the tail of a key belongs to the operation chained
    last on it. *)
Lemma tail_after_run tr m uri :
  gate_inv m →
  tail_op (run basicHash tr m) uri
  = foldl (λ _ o, Some o) (tail_op m uri) (chained basicHash uri tr m).
Proof.
  revert m. induction tr as [|ev tr IH]; intros m I; [done|].
  simpl. rewrite IH by by apply gate_inv_exec.
  pose proof (exec_tail ev m uri I) as H.
  destruct (chain_of basicHash ev m) as [[uri' o]|].
  - destruct (decide (uri' = uri)); [|by destruct H as [_ ->]].
    simpl. by rewrite H.
  - by destruct H as [_ ->].
Qed.

Lemma quiet_filePromises tr m uri :
  gate_inv m → chained basicHash uri tr m = [] →
  _filePromises (run basicHash tr m) !! uri = _filePromises m !! uri.
Proof.
  revert m. induction tr as [|ev tr IH]; intros m I Hq; [done|].
  simpl in *. pose proof (exec_tail ev m uri I) as H.
  destruct (chain_of basicHash ev m) as [[uri' o]|].
  - destruct (decide (uri' = uri)); [done|].
    destruct H as [<- _]. apply IH; [by apply gate_inv_exec|done].
  - destruct H as [<- _]. apply IH; [by apply gate_inv_exec|done].
Qed.

(** A waiter that starts on the tail cell of its key returns only when
    the callback of the tail's operation has run. *)
Lemma tail_returned m uri p fuel :
  gate_inv m → _filePromises m !! uri = Some p →
  drain (S fuel) (promises m) p = Returned →
  ∃ o, tail_op m uri = Some o ∧ fulfilled m o = true.
Proof.
  intros I Hp Hd.
  destruct (inv_tail m I _ _ Hp) as [Hc|Hc].
  - by rewrite drain_pending in Hd.
  - destruct (inv_null m I _ Hc) as (o&Ht&Hf). exists o. split; [|done].
    unfold tail_op. by rewrite Hp, Ht.
Qed.

(** A waiter that starts on the tail cell of [uri] returns only once the
    operation of that tail, or one chained on [uri] later, is fulfilled. *)
Lemma waiter_observes tr : ∀ m uri p o0 fuel,
  gate_inv m →
  _filePromises m !! uri = Some p →
  tail_op m uri = Some o0 →
  drain fuel (promises (run basicHash tr m)) p = Returned →
  ∃ o, o ∈ o0 :: chained basicHash uri tr m ∧
       fulfilled (run basicHash tr m) o = true.
Proof.
  induction tr as [|ev tr IH]; intros m uri p o0 fuel I Hp Ho0 Hd.
  - destruct fuel as [|fuel]; [done|].
    destruct (tail_returned m uri p fuel I Hp Hd) as (o&Ho&Hf).
    exists o. split; [|done]. rewrite Ho in Ho0. injection Ho0 as ->.
    apply elem_of_cons. by left.
  - simpl in Hd. destruct (inv_tail m I _ _ Hp) as [Hc|Hc].
    + pose proof (exec_tail ev m uri I) as Hnew.
      pose proof (exec_chain_of ev m) as Hsh. simpl.
      destruct (chain_of basicHash ev m) as [[uri' o']|];
        [destruct (decide (uri' = uri)) as [->|Hne]|].
      * destruct Hsh as (m'&(Hf'&Hp'&_)&Hex).
        assert (Hlink : promises (run basicHash tr (exec basicHash ev m)) !! p
                        = Some (Resolved (Some (length (promises m'))))).
        { apply run_keeps.
          rewrite Hex, chain_promises, Hf', Hp, resolve_lookup_eq.
          rewrite (lookup_app_l_Some _ _ _ Pending); [done|by rewrite Hp']. }
        destruct fuel as [|fuel]; [done|].
        rewrite (drain_link _ _ _ _ Hlink) in Hd.
        destruct (IH (exec basicHash ev m) uri (length (promises m')) o' fuel)
          as (o&Ho&Hf); auto using gate_inv_exec.
        { rewrite Hex, chain_filePromises. apply lookup_insert_eq. }
        exists o. split; [|done]. apply elem_of_cons. by right.
      * destruct Hnew as [Hfp Htl].
        apply (IH (exec basicHash ev m) uri p o0 fuel);
          auto using gate_inv_exec; congruence.
      * destruct Hnew as [Hfp Htl].
        apply (IH (exec basicHash ev m) uri p o0 fuel);
          auto using gate_inv_exec; congruence.
    + destruct (inv_null m I _ Hc) as (o&Ht&Hf). exists o. split.
      * unfold tail_op in Ho0. rewrite Hp, Ht in Ho0. injection Ho0 as ->.
        apply elem_of_cons. by left.
      * by apply run_fulfilled.
Qed.

(** A waiter that was suspended on the tail cell when a later operation
    was chained follows the link to the new tail: its own operation no
    longer decides when it returns. *)
Lemma superseded_waiter ev tr m uri p o fuel :
  gate_inv m →
  _filePromises m !! uri = Some p →
  promises m !! p = Some Pending →
  chain_of basicHash ev m = Some (uri, o) →
  drain fuel (promises (run basicHash tr (exec basicHash ev m))) p = Returned →
  ∃ o', o' ∈ o :: chained basicHash uri tr (exec basicHash ev m) ∧
        fulfilled (run basicHash tr (exec basicHash ev m)) o' = true.
Proof.
  intros I Hp Hpend Hev Hd.
  assert (I1 : gate_inv (exec basicHash ev m)) by by apply gate_inv_exec.
  pose proof (exec_tail ev m uri I) as Hnew.
  pose proof (exec_chain_of ev m) as Hsh. rewrite Hev in Hnew, Hsh.
  rewrite decide_True in Hnew by done.
  destruct Hsh as (m'&(Hf'&Hp'&_)&Hex).
  set (mf := run basicHash tr (exec basicHash ev m)) in *.
  assert (Hlink : promises mf !! p = Some (Resolved (Some (length (promises m'))))).
  { apply run_keeps. rewrite Hex, chain_promises, Hf', Hp, resolve_lookup_eq.
    rewrite (lookup_app_l_Some _ _ _ Pending); [done|by rewrite Hp']. }
  destruct fuel as [|fuel]; [done|].
  rewrite (drain_link _ _ _ _ Hlink) in Hd.
  apply (waiter_observes tr _ uri (length (promises m')) o fuel); auto.
  rewrite Hex, chain_filePromises. apply lookup_insert_eq.
Qed.

Lemma checkProject_begin_task docs m :
  snd (checkProject_begin basicHash docs m) = length (tasks m).
Proof.
  unfold checkProject_begin, kill_current. by destruct (_operation m).
Qed.

End ManagerFacts.

(** ** The sequential gate *)

(** C1.  For every key, when operations op1..opN have been chained on it
    in this order, a [_getFilePromise] call issued after these chain calls
    returns only once opN is fulfilled.  A waiter that is still waiting
    when a further operation is chained on its key returns only once that
    superseding operation, or one chained still later, is fulfilled: the
    operation it first waited for no longer decides.  This is the case of
    a caller of [checkProject], which waits through [_getFilePromise] on
    the project key, when the next [checkProject] call chains its own
    [_checkShared] call. *)
Theorem C1_waiters_follow_the_last_chained (basicHash : string → string) :
  (∀ (uri : string) (tr1 tr2 : list event) (ops : list op) (opN : op),
     let m1 := run basicHash tr1 new_manager in
     let m2 := run basicHash tr2 m1 in
     chained basicHash uri tr1 new_manager = ops ++ [opN] →
     chained basicHash uri tr2 m1 = [] →
     resume m2 (_getFilePromise uri m1) = Returned →
     fulfilled m2 opN = true)
  ∧
  (∀ (uri : string) (tr0 tr1 tr2 : list event) (ev : event) (o : op),
     let ma := run basicHash tr0 new_manager in
     let w := _getFilePromise uri ma in
     let m0 := run basicHash tr1 ma in
     let m1 := exec basicHash ev m0 in
     let mf := run basicHash tr2 m1 in
     chained basicHash uri tr1 ma = [] →
     resume m0 w ≠ Returned →
     chain_of basicHash ev m0 = Some (uri, o) →
     resume mf w = Returned →
     ∃ o', o' ∈ o :: chained basicHash uri tr2 m1 ∧ fulfilled mf o' = true)
  ∧
  (∀ (docs : gmap string string) (m : manager),
     snd (checkProject basicHash docs m)
     = _getFilePromise PROJECT_CHECK_STR (fst (checkProject basicHash docs m)) ∧
     exec basicHash (CallCheckProject docs) m
     = fst (checkProject basicHash docs m) ∧
     chain_of basicHash (CallCheckProject docs) m
     = Some (PROJECT_CHECK_STR,
             TaskOp (snd (checkProject_begin basicHash docs m)))).
Proof.
  split; [|split].
  - intros uri tr1 tr2 ops opN m1 m2 Hch Hq Hres.
    assert (I1 : gate_inv m1) by apply gate_inv_run, gate_inv_new.
    assert (I2 : gate_inv m2) by by apply gate_inv_run.
    pose proof (tail_after_run basicHash tr1 new_manager uri gate_inv_new)
      as Ht1.
    rewrite Hch, foldl_app in Ht1. simpl in Ht1. fold m1 in Ht1.
    pose proof (tail_after_run basicHash tr2 m1 uri I1) as Ht2.
    rewrite Hq in Ht2. simpl in Ht2. fold m2 in Ht2.
    pose proof (quiet_filePromises basicHash tr2 m1 uri I1 Hq) as Hfp.
    fold m2 in Hfp. unfold _getFilePromise in Hres.
    destruct (_filePromises m1 !! uri) as [p|] eqn:Ep.
    + destruct (tail_returned m2 uri p _ I2 Hfp Hres) as (o&Ho&Hf).
      congruence.
    + unfold tail_op in Ht1. by rewrite Ep in Ht1.
  - intros uri tr0 tr1 tr2 ev o ma w m0 m1 mf Hq Hwait Hev Hres.
    assert (Ia : gate_inv ma) by apply gate_inv_run, gate_inv_new.
    assert (I0 : gate_inv m0) by by apply gate_inv_run.
    subst w. unfold _getFilePromise in *.
    destruct (_filePromises ma !! uri) as [p|] eqn:Ep; [|done].
    assert (Hp : _filePromises m0 !! uri = Some p).
    { unfold m0. by rewrite (quiet_filePromises basicHash tr1 ma _ Ia Hq). }
    assert (Hpend : promises m0 !! p = Some Pending).
    { destruct (inv_tail m0 I0 _ _ Hp) as [H|H]; [done|].
      exfalso. apply Hwait. by apply drain_null. }
    eapply (superseded_waiter basicHash ev tr2 m0 uri p o _ I0 Hp Hpend Hev).
    exact Hres.
  - intros docs m. rewrite checkProject_begin_task. split; [|done].
    unfold checkProject, checkProject_begin, kill_current.
    by destruct (_operation m).
Qed.

(** ** One active operation *)

Lemma is_active_dispose_check c c' m :
  is_active (dispose_check c m) c'
  = if decide (c = c') then false else is_active m c'.
Proof.
  unfold is_active. simpl. destruct (decide (c = c')) as [->|Hne].
  - rewrite list_lookup_alter_eq. by destruct (checks m !! c').
  - by rewrite list_lookup_alter_ne.
Qed.

Lemma slot_inv_same m m' :
  _operation m' = _operation m → checks m' = checks m →
  slot_inv m → slot_inv m'.
Proof.
  intros Ho Hc [A B]. split; unfold is_active; rewrite ?Ho, ?Hc; auto.
Qed.

Lemma kill_current_idle m :
  slot_inv m →
  _operation (kill_current m) = None ∧
  ∀ c, is_active (kill_current m) c = false.
Proof.
  intros [A B]. unfold kill_current.
  destruct (_operation m) as [o|] eqn:Eo; simpl.
  - split; [done|]. intros c.
    change (is_active (dispose_check (check o) m) c = false).
    rewrite is_active_dispose_check. destruct (decide (check o = c)); [done|].
    destruct (is_active m c) eqn:Ec; [|done].
    apply A in Ec. simpl in Ec. congruence.
  - split; [done|]. intros c. destruct (is_active m c) eqn:Ec; [|done].
    by apply A in Ec.
Qed.

Lemma dispose_idle m :
  slot_inv m →
  _operation (dispose m) = None ∧ ∀ c, is_active (dispose m) c = false.
Proof.
  intros I. destruct (kill_current_idle m I) as [_ Hk]. split; [done|].
  intros c. specialize (Hk c). unfold dispose, kill_current in *.
  by destruct (_operation m).
Qed.

Lemma slot_inv_idle m :
  _operation m = None → (∀ c, is_active m c = false) → slot_inv m.
Proof. intros Ho Hc. split; [intros c; by rewrite Hc | by rewrite Ho]. Qed.

Section SlotFacts.

Variable basicHash : string → string.

Lemma checkShared_begin_slot ty a d ds docs m :
  (∀ c, is_active m c = false) →
  slot_inv (fst (_checkShared_begin basicHash ty a d ds docs m)).
Proof.
  intros Hidle. split; simpl.
  - intros c. unfold is_active. simpl.
    intros Hc. f_equal.
    destruct (checks m !! c) as [k|] eqn:Ek.
    + specialize (Hidle c). unfold is_active in Hidle.
      rewrite (lookup_app_l_Some _ _ _ _ Ek) in Hc. by rewrite Ek, Hc in Hidle.
    + apply lookup_ge_None in Ek. rewrite lookup_app_r in Hc by done.
      destruct (c - length (checks m)) as [|n] eqn:E; [lia|].
      by destruct n.
  - intros o [= <-]. simpl. rewrite length_app. simpl. lia.
Qed.

Lemma slot_inv_checkProject_begin docs m :
  slot_inv m → slot_inv (fst (checkProject_begin basicHash docs m)).
Proof.
  intros I. apply checkShared_begin_slot. by apply kill_current_idle.
Qed.

Lemma slot_inv_checkProject docs m :
  slot_inv m → slot_inv (fst (checkProject basicHash docs m)).
Proof.
  intros I. rewrite checkProject_chain.
  eapply slot_inv_same; [| |by apply slot_inv_checkProject_begin]; done.
Qed.

Lemma slot_inv_step t i m : slot_inv m → slot_inv (_checkShared_step t i m).
Proof.
  intros I. unfold _checkShared_step.
  destruct (tasks m !! t) as [k|]; [|done].
  assert (Hdis : slot_inv (dispose_check (t_check k) m)).
  { destruct I as [A B]. split.
    - intros c. rewrite is_active_dispose_check.
      destruct (decide _); [done|apply A].
    - intros o Ho. simpl. rewrite length_alter. by apply B. }
  destruct (t_stage k), i as [| |[r|]|]; try done;
    unfold withTimeout, finish_with, onTimeout;
    (eapply slot_inv_same; [| |exact I]; done) ||
    (eapply slot_inv_same; [| |exact Hdis]; done).
Qed.

Lemma slot_inv_exec ev m : slot_inv m → slot_inv (exec basicHash ev m).
Proof.
  intros I.
  destruct ev as [uri o|n ok|k|docs|docs|uri content docs| | |t i];
    cbn [exec].
  - by eapply slot_inv_same; [| |exact I].
  - unfold settle. destruct (settled m !! n); [done|].
    by eapply slot_inv_same; [| |exact I].
  - unfold run_then. destruct (thens m !! k) as [[o q]|]; [|done].
    destruct (fulfilled m o); [|done]. by eapply slot_inv_same; [| |exact I].
  - by apply slot_inv_checkProject_begin.
  - by apply slot_inv_checkProject.
  - rewrite checkProjectIfFileChanged_delegates.
    destruct (delegates _ _ _ _); [by apply slot_inv_checkProject|done].
  - destruct (dispose_idle m I) as [Ho Hc].
    eapply slot_inv_same; [| |exact (slot_inv_idle _ Ho Hc)]; done.
  - destruct (dispose_idle m I) as [Ho Hc]. by apply slot_inv_idle.
  - by apply slot_inv_step.
Qed.

Lemma slot_inv_new : slot_inv new_manager.
Proof. by apply slot_inv_idle. Qed.

Lemma slot_inv_run tr m : slot_inv m → slot_inv (run basicHash tr m).
Proof.
  revert m. induction tr as [|ev tr IH]; simpl; auto using slot_inv_exec.
Qed.

End SlotFacts.

(** C2.  At most one operation is active at any time: in every state the
    manager can reach, a runner that is not disposed is the runner of the
    active-operation slot.  When [checkProject] is called while an
    operation is active, the runner of that operation is disposed and the
    slot is cleared, so that no runner is active, before the new runner is
    created and installed. *)
Theorem C2_single_active_operation (basicHash : string → string) :
  (∀ (tr : list event) (c1 c2 : nat),
     let m := run basicHash tr new_manager in
     is_active m c1 = true → is_active m c2 = true →
     c1 = c2 ∧ check <$> _operation m = Some c1)
  ∧
  (∀ (tr : list event) (docs : gmap string string) (o : CheckOperation),
     let m := run basicHash tr new_manager in
     let new := length (checks m) in
     _operation m = Some o →
     checkProject_begin basicHash docs m
     = _checkShared_begin basicHash Project true "Project" "project" docs
         (kill_current m) ∧
     effects (kill_current m) = effects m ++ [CheckDisposed (check o)] ∧
     _operation (kill_current m) = None ∧
     (∀ c, is_active (kill_current m) c = false) ∧
     effects (fst (checkProject basicHash docs m))
     = effects m ++ [CheckDisposed (check o); CheckCreated new Project;
                     Logged new "Check started for Project";
                     StatusStart (length (tasks m)) "Checking project"] ∧
     _operation (fst (checkProject basicHash docs m))
     = Some {| check := new; hashes := basicHash <$> docs |} ∧
     new ≠ check o ∧
     is_active (fst (checkProject basicHash docs m)) (check o) = false ∧
     is_active (fst (checkProject basicHash docs m)) new = true).
Proof.
  split.
  - intros tr c1 c2 m H1 H2.
    destruct (slot_inv_run basicHash tr _ slot_inv_new) as [A _].
    apply A in H1 as H1'. apply A in H2. fold m in H1', H2.
    split; [congruence|done].
  - intros tr docs o m new Ho.
    pose proof (slot_inv_run basicHash tr _ slot_inv_new) as I. fold m in I.
    destruct (kill_current_idle m I) as [Hnone Hidle].
    pose proof (slot_alloc m I o Ho) as Hlt.
    pose proof (slot_inv_checkProject basicHash docs m I) as [A _].
    assert (Hslot : _operation (fst (checkProject basicHash docs m))
                    = Some {| check := new; hashes := basicHash <$> docs |}).
    { unfold checkProject, checkProject_begin, kill_current. rewrite Ho.
      simpl. by rewrite length_alter. }
    assert (Hnew : is_active (fst (checkProject basicHash docs m)) new = true).
    { unfold checkProject, checkProject_begin, kill_current, is_active.
      rewrite Ho. simpl. rewrite lookup_app_r by (rewrite length_alter; done).
      subst new. by rewrite length_alter, Nat.sub_diag. }
    repeat split; try done.
    + unfold kill_current. by rewrite Ho.
    + unfold checkProject, checkProject_begin, kill_current. rewrite Ho.
      simpl. rewrite length_alter, <- !app_assoc. done.
    + subst new. lia.
    + destruct (is_active _ (check o)) eqn:E; [|done].
      apply A in E. rewrite Hslot in E. simpl in E.
      injection E as E. subst new. lia.
Qed.

(** ** Change detection *)

Section HashFacts.

Variable basicHash : string → string.

Lemma step_operation t i m : _operation (_checkShared_step t i m) = _operation m.
Proof.
  unfold _checkShared_step. destruct (tasks m !! t) as [k|]; [|done].
  by destruct (t_stage k), i as [| |[r|]|].
Qed.

Lemma hashes_inv_begin docs m :
  hashes_inv basicHash (fst (checkProject_begin basicHash docs m)).
Proof.
  intros o uri h [= <-]. simpl. rewrite lookup_fmap.
  destruct (docs !! uri) as [content|]; [|done]. intros [= <-]. eauto.
Qed.

Lemma hashes_inv_same m m' :
  _operation m' = _operation m →
  hashes_inv basicHash m → hashes_inv basicHash m'.
Proof. intros Ho I o. rewrite Ho. apply I. Qed.

Lemma hashes_inv_exec ev m :
  hashes_inv basicHash m → hashes_inv basicHash (exec basicHash ev m).
Proof.
  intros I.
  destruct ev as [uri o|n ok|k|docs|docs|uri content docs| | |t i];
    cbn [exec].
  - by eapply hashes_inv_same; [|exact I].
  - unfold settle. destruct (settled m !! n); [done|].
    by eapply hashes_inv_same; [|exact I].
  - unfold run_then. destruct (thens m !! k) as [[o q]|]; [|done].
    destruct (fulfilled m o); [|done]. by eapply hashes_inv_same; [|exact I].
  - apply hashes_inv_begin.
  - rewrite checkProject_chain.
    by eapply hashes_inv_same; [|apply hashes_inv_begin].
  - rewrite checkProjectIfFileChanged_delegates.
    destruct (delegates _ _ _ _); [|done]. rewrite checkProject_chain.
    by eapply hashes_inv_same; [|apply hashes_inv_begin].
  - by intros o uri h.
  - by intros o uri h.
  - eapply hashes_inv_same; [apply step_operation|done].
Qed.

Lemma hashes_inv_run tr m :
  hashes_inv basicHash m → hashes_inv basicHash (run basicHash tr m).
Proof.
  revert m. induction tr as [|ev tr IH]; simpl; auto using hashes_inv_exec.
Qed.

Lemma hashes_inv_new : hashes_inv basicHash new_manager.
Proof. by intros o uri h. Qed.

End HashFacts.

Lemma truthy_nonempty s : s ≠ "" → truthy s = true.
Proof. by destruct s. Qed.

Lemma eqb_string_ne (s1 s2 : string) : s1 ≠ s2 → String.eqb s1 s2 = false.
Proof. intros H. by apply String.eqb_neq. Qed.

Lemma not_inherited_not_proto uri :
  inherited_member uri = false → String.eqb uri "__proto__" = false.
Proof.
  intros H. destruct (String.eqb_spec uri "__proto__") as [->|]; [|done].
  vm_compute in H. discriminate.
Qed.

Lemma hashes_get_own (hashes : gmap string string) uri h :
  uri ≠ "__proto__" → hashes !! uri = Some h → hashes_get hashes uri = Own h.
Proof.
  intros Hne Hh. unfold hashes_get, js_get.
  by rewrite (eqb_string_ne _ _ Hne), Hh.
Qed.

Lemma hashes_get_missing (hashes : gmap string string) uri :
  inherited_member uri = false → hashes !! uri = None →
  hashes_get hashes uri = Missing.
Proof.
  intros Hi Hh. unfold hashes_get, js_get.
  by rewrite (not_inherited_not_proto _ Hi), Hh, Hi.
Qed.

Lemma hashes_get_inherited (hashes : gmap string string) uri :
  uri = "__proto__" ∨ (inherited_member uri = true ∧ hashes !! uri = None) →
  hashes_get hashes uri = Inherited.
Proof.
  unfold hashes_get, js_get. intros [->|[Hi Hh]]; [done|].
  rewrite Hh, Hi. by destruct (String.eqb uri "__proto__").
Qed.

(** X23.  For a [uri] that names no member of [Object.prototype], with
    an operation active and a non-empty [content],
    [checkProjectIfFileChanged uri content] starts nothing when the
    operation holds no hash for [uri] or holds [basicHash content], and is
    [checkProject] when it holds a different hash.  The digest is never
    the empty string. *)
Theorem checkProjectIfFileChanged_compares_own_hashes
    (basicHash : string → string)
    (digest_nonempty : ∀ content, basicHash content ≠ "")
    (tr : list event) (uri content : string) (docs : gmap string string)
    (o : CheckOperation) :
  let m := run basicHash tr new_manager in
  _operation m = Some o →
  content ≠ "" →
  inherited_member uri = false →
  (hashes o !! uri = None ∨ hashes o !! uri = Some (basicHash content) →
   checkProjectIfFileChanged basicHash uri (Some content) docs m
   = (m, Returned)) ∧
  (∀ h, hashes o !! uri = Some h → h ≠ basicHash content →
   checkProjectIfFileChanged basicHash uri (Some content) docs m
   = checkProject basicHash docs m).
Proof.
  intros m Ho Hc Hi.
  pose proof (hashes_inv_run basicHash tr _ (hashes_inv_new basicHash)) as I.
  fold m in I. unfold checkProjectIfFileChanged. rewrite Ho.
  rewrite (truthy_nonempty _ Hc). simpl.
  assert (Hne : uri ≠ "__proto__").
  { intros ->. vm_compute in Hi. discriminate. }
  split.
  - intros [Hh | Hh].
    + by rewrite (hashes_get_missing _ _ Hi Hh).
    + rewrite (hashes_get_own _ _ _ Hne Hh), String.eqb_refl.
      by rewrite andb_false_r.
  - intros h Hh Hd. rewrite (hashes_get_own _ _ _ Hne Hh).
    destruct (I o uri h Ho Hh) as [c ->].
    rewrite (truthy_nonempty _ (digest_nonempty c)).
    by rewrite (eqb_string_ne _ _ Hd).
Qed.

(** X24.  Keys that read as inherited members always start a check.
    With an operation active and a non-empty [content],
    [checkProjectIfFileChanged uri content] is [checkProject] when [uri]
    names a member of [Object.prototype] and the operation holds no hash
    of its own for it, and for the key [__proto__] in every case, also
    when the documents hold that very content under it. *)
Theorem inherited_keys_always_start_a_check
    (basicHash : string → string) (m : manager) (o : CheckOperation)
    (uri content : string) (docs : gmap string string) :
  _operation m = Some o →
  content ≠ "" →
  uri = "__proto__" ∨ (inherited_member uri = true ∧ hashes o !! uri = None) →
  checkProjectIfFileChanged basicHash uri (Some content) docs m
  = checkProject basicHash docs m.
Proof.
  intros Ho Hc Hu. unfold checkProjectIfFileChanged. rewrite Ho.
  rewrite (truthy_nonempty _ Hc). simpl.
  by rewrite (hashes_get_inherited _ _ Hu).
Qed.


(** C4, as the code has it.  With an operation active,
    [checkProjectIfFileChanged uri undefined] (and likewise with the empty
    string) starts nothing; with no operation active it is [checkProject],
    whatever the content. *)
Theorem C4_undefined_content_after_the_slot_test
    (basicHash : string → string) (m : manager) (uri : string)
    (docs : gmap string string) :
  (∀ o, _operation m = Some o →
     checkProjectIfFileChanged basicHash uri None docs m = (m, Returned) ∧
     checkProjectIfFileChanged basicHash uri (Some "") docs m = (m, Returned))
  ∧
  (_operation m = None →
     ∀ content, checkProjectIfFileChanged basicHash uri content docs m
                = checkProject basicHash docs m).
Proof.
  unfold checkProjectIfFileChanged. split.
  - intros o ->. done.
  - intros ->. done.
Qed.

(** ** Disposal *)

(** C8.  [dispose] disposes the runner of the active operation, if there
    is one, and clears the slot; it leaves the promise chains as they are
    and does not advance any [_checkShared] call, so the runner's teardown
    is not waited for.  [clear] does the same and then tells the report
    provider to drop its report. *)
Theorem C8_dispose_and_clear_frame (m : manager) :
  (_operation (dispose m) = None ∧
   effects (dispose m)
   = effects m ++ match _operation m with
                  | Some o => [CheckDisposed (check o)]
                  | None => []
                  end ∧
   match _operation m with
   | Some o => is_active (dispose m) (check o) = false
   | None => checks (dispose m) = checks m
   end ∧
   _filePromises (dispose m) = _filePromises m ∧
   promises (dispose m) = promises m ∧
   thens (dispose m) = thens m ∧
   tasks (dispose m) = tasks m)
  ∧
  (_operation (clear m) = None ∧
   effects (clear m) = effects (dispose m) ++ [ReportCleared] ∧
   checks (clear m) = checks (dispose m) ∧
   _filePromises (clear m) = _filePromises m ∧
   promises (clear m) = promises m ∧
   thens (clear m) = thens m ∧
   tasks (clear m) = tasks m).
Proof.
  unfold clear, dispose. destruct (_operation m) as [o|] eqn:Eo.
  - repeat split; try done.
    change (is_active (dispose_check (check o) m) (check o) = false).
    rewrite is_active_dispose_check. by rewrite decide_True.
  - repeat split; try done. simpl. by rewrite app_nil_r.
Qed.

(** ** The timeout guard in [_checkShared] *)

(** C5.  The timer of the guard is armed with the file timeout for a file
    check and with the project timeout for a project check.  When the
    timer fires before the check settles, all that happens to the runner
    is that the handler disposes it; the handler finishes the status bar
    operation with [KILLED], and the result of the guarded check is the
    killed result, with which the operation is finished again. *)
Theorem C5_timeout_kills_the_check (m : manager) (t : nat) (k : task) :
  tasks m !! t = Some k →
  (∀ config,
     t_stage k = AwaitConfig →
     let deadline := match t_type k with
                     | File => timeout config
                     | Project => projectTimeout config
                     end in
     let m1 := _checkShared_step t (GotConfig config) m in
     stage_of m1 t = Some (AwaitRace deadline) ∧
     effects m1 = effects m ++ [CheckStarted (t_check k) (t_applyErrors k);
                                TimerArmed t deadline])
  ∧
  (∀ deadline,
     t_stage k = AwaitRace deadline →
     let m1 := _checkShared_step t (Raced TimerFirst) m in
     let m2 := _checkShared_step t Resumed m1 in
     effects m1 = effects m ++ [CheckDisposed (t_check k);
                                TimeoutNotice (t_check k);
                                StatusFinish t KILLED] ∧
     is_active m1 (t_check k) = false ∧
     stage_of m1 t = Some AwaitKilledFinish ∧
     stage_of m2 t = Some (AwaitFinish ReturnResult_killed) ∧
     status ReturnResult_killed = KILLED ∧
     effects m2 = effects m1 ++ [StatusFinish t KILLED]).
Proof.
  intros Hk. split.
  - intros config Hs deadline m1. subst m1. unfold _checkShared_step, stage_of.
    rewrite Hk, Hs. simpl. rewrite list_lookup_alter_eq, Hk. done.
  - intros deadline Hs m1 m2.
    assert (Hm1 : m1 = onTimeout t k m).
    { subst m1. unfold _checkShared_step. by rewrite Hk, Hs. }
    assert (Hst1 : tasks m1 !! t
              = Some {| t_check := t_check k; t_type := t_type k;
                        t_applyErrors := t_applyErrors k;
                        t_description := t_description k;
                        t_stage := AwaitKilledFinish |}).
    { rewrite Hm1. simpl. by rewrite list_lookup_alter_eq, Hk. }
    assert (Hm2 : m2 = finish_with t ReturnResult_killed m1).
    { subst m2. unfold _checkShared_step. by rewrite Hst1. }
    repeat split.
    + rewrite Hm1. simpl. by rewrite <- app_assoc.
    + rewrite Hm1. unfold onTimeout.
      change (is_active (dispose_check (t_check k) m) (t_check k) = false).
      rewrite is_active_dispose_check. by rewrite decide_True.
    + unfold stage_of. by rewrite Hst1.
    + unfold stage_of. rewrite Hm2. simpl.
      by rewrite list_lookup_alter_eq, Hst1.
    + by rewrite Hm2.
Qed.

(** ** The hover provider *)

Lemma matches_spec type hoverParams :
  matches type hoverParams = true ↔
  line (start (pos type)) = position_line hoverParams ∧
  (char (start (pos type)) < position_character hoverParams)%Z ∧
  (position_character hoverParams < char (end_ (pos type)))%Z.
Proof.
  unfold matches. rewrite !andb_true_iff, Z.eqb_eq, Z.ltb_lt, Z.gtb_gt.
  intuition lia.
Qed.

Lemma look_for_first records hoverParams :
  look_for records hoverParams
  = hover_of <$> head (filter (strictly_inside hoverParams) records).
Proof.
  induction records as [|type rest IH]; [done|]. simpl.
  rewrite filter_cons. pose proof (matches_spec type hoverParams) as Hm.
  fold (strictly_inside hoverParams type) in Hm.
  case_decide as H; destruct (matches type hoverParams); try done.
  - by apply Hm in H.
  - destruct H. by apply Hm.
Qed.

Lemma look_for_Some records hoverParams h :
  look_for records hoverParams = Some h →
  ∃ type, type ∈ records ∧ matches type hoverParams = true ∧ h = hover_of type.
Proof.
  induction records as [|type rest IH]; [done|]. simpl.
  destruct (matches type hoverParams) eqn:E.
  - intros [= <-]. exists type. split; [apply elem_of_cons; by left|done].
  - intros H. destruct (IH H) as (r&?&?&?). exists r.
    split; [apply elem_of_cons; by right|done].
Qed.

Section HoverFacts.

Variable NO_CANCEL_OPERATIONS : bool.
Variables MAX_HOVER_WAIT_TIME HOVER_WAIT_CHUNK_TIME : nat.
Variable JSON_parse : string → option ReporterFile.
Variable JSON_null : string → bool.
Variable fsPath : string → string.
Variable path_join : string → string → string.

Local Abbreviation handler :=
  (hoverHandler NO_CANCEL_OPERATIONS MAX_HOVER_WAIT_TIME HOVER_WAIT_CHUNK_TIME
     JSON_parse JSON_null fsPath path_join).

Local Abbreviation wait env :=
  (waitPeriodical MAX_HOVER_WAIT_TIME HOVER_WAIT_CHUNK_TIME
     (poll_callback NO_CANCEL_OPERATIONS env)).

(** Once the check is seen done and the report is read, the handler
    answers with the scan of the records unless it sees the token
    cancelled. *)
Lemma handler_after_done env hoverParams workspaceFolder text reporterFile :
  getWorkspaceFolder env = Some workspaceFolder →
  truthy workspaceFolder = true →
  negb NO_CANCEL_OPERATIONS && cancelled_on_entry env = false →
  wait env = Some checkDone →
  files env !! path_join workspaceFolder "reported.json" = Some text →
  JSON_parse text = Some reporterFile →
  handler env hoverParams
  = if negb NO_CANCEL_OPERATIONS && cancelled_after_read env then Ret None
    else Ret (look_for (records_of fsPath reporterFile hoverParams) hoverParams).
Proof.
  intros Hw Ht Hc Hd Hf Hp. unfold hoverHandler.
  by rewrite Hw, Ht, Hc, Hd, Hf, Hp.
Qed.

(** C7, as the code has it.  After the check is seen done the handler
    answers with the first record of the queried file that starts on the
    line of the query and whose characters lie strictly around the query
    character: the start character is excluded like the end character.
    For the record from 2:4 to 2:6 a query at 2:5 finds the record, a
    query at 2:6 finds nothing, and neither does a query at 2:4. *)
Theorem C7_hover_finds_first_record_strictly_inside
    env hoverParams workspaceFolder text reporterFile :
  getWorkspaceFolder env = Some workspaceFolder →
  truthy workspaceFolder = true →
  negb NO_CANCEL_OPERATIONS && cancelled_on_entry env = false →
  wait env = Some checkDone →
  files env !! path_join workspaceFolder "reported.json" = Some text →
  JSON_parse text = Some reporterFile →
  negb NO_CANCEL_OPERATIONS && cancelled_after_read env = false →
  handler env hoverParams
  = Ret (hover_of <$> head (filter (strictly_inside hoverParams)
                              (records_of fsPath reporterFile hoverParams))) ∧
  look_for [sample_record] (sample_query 5)
  = Some {| contents := ["PHPStan: `int $x`"] |} ∧
  look_for [sample_record] (sample_query 6) = None ∧
  look_for [sample_record] (sample_query 4) = None.
Proof.
  intros Hw Ht Hc Hd Hf Hp Hl.
  rewrite (handler_after_done _ _ _ _ _ Hw Ht Hc Hd Hf Hp), Hl.
  by rewrite look_for_first.
Qed.

(** C10.  With cancellation in force, a token seen cancelled after the
    report file has been read makes the handler answer [null], although
    the wait ended with [checkDone] and whatever the records hold. *)
Theorem C10_cancel_after_read_answers_null
    env hoverParams workspaceFolder text reporterFile :
  NO_CANCEL_OPERATIONS = false →
  getWorkspaceFolder env = Some workspaceFolder →
  truthy workspaceFolder = true →
  cancelled_on_entry env = false →
  wait env = Some checkDone →
  files env !! path_join workspaceFolder "reported.json" = Some text →
  JSON_parse text = Some reporterFile →
  cancelled_after_read env = true →
  handler env hoverParams = Ret None.
Proof.
  intros Hn Hw Ht Hc Hd Hf Hp Hl.
  rewrite (handler_after_done env hoverParams workspaceFolder text reporterFile);
    try done.
  - by rewrite Hn, Hl.
  - by rewrite Hc, andb_false_r.
Qed.

(** C6.  [_getFileReport] answers [null] and changes nothing when the
    key has no reservation.  With a reservation it removes the
    reservation, whatever follows, and answers with the entry of the
    parsed report file for the reserved source path; a missing file and a
    text that does not parse give [null].  A second call for the same key
    therefore answers [null] and changes nothing. *)
Theorem C6_getFileReport_consumes_once
    (fs fs' : gmap string string) (uri : string) (st : hooks) :
  (_operationMap st !! uri = None →
   _getFileReport JSON_parse fs uri st = (st, JsNull))
  ∧
  (∀ match_, _operationMap st !! uri = Some match_ →
     let st1 := fst (_getFileReport JSON_parse fs uri st) in
     let report := snd (_getFileReport JSON_parse fs uri st) in
     _operationMap st1 = delete uri (_operationMap st) ∧
     _reports st1 = _reports st ∧
     (fs !! reportPath match_ = None → report = JsNull) ∧
     (∀ file, fs !! reportPath match_ = Some file →
        JSON_parse file = None → report = JsNull) ∧
     (∀ file parsed r, fs !! reportPath match_ = Some file →
        JSON_parse file = Some parsed →
        parsed !! sourceFilePath match_ = Some r → report = JsReport r))
  ∧
  (let st1 := fst (_getFileReport JSON_parse fs uri st) in
   _getFileReport JSON_parse fs' uri st1 = (st1, JsNull)).
Proof.
  split; [|split].
  - unfold _getFileReport. by intros ->.
  - intros match_ Hm st1 report. subst st1 report. unfold _getFileReport.
    rewrite Hm.
    destruct (fs !! reportPath match_) as [file|] eqn:Ef.
    2: { simpl. repeat split; congruence. }
    destruct (JSON_parse file) as [parsed|] eqn:Ep.
    2: { simpl. repeat split; congruence. }
    simpl. repeat split; try congruence.
    intros file' parsed' r [= <-] Hp' Hr. rewrite Ep in Hp'.
    injection Hp' as <-. unfold js_get. by rewrite Hr.
  - intros st1.
    assert (Hgone : _operationMap st1 !! uri = None).
    { subst st1. unfold _getFileReport.
      destruct (_operationMap st !! uri) as [match_|] eqn:E; [|done].
      destruct (fs !! reportPath match_) as [file|];
        [destruct (JSON_parse file)|]; apply lookup_delete_eq. }
    unfold _getFileReport. by rewrite Hgone.
Qed.

End HoverFacts.

(** C9.  The test of the handler compares the line of the query with the
    start line of a record only: a record matches on its start line or
    not at all, and its end line plays no part, so a record that ends on
    a later line is still found on its start line alone. *)
Theorem C9_only_the_start_line_is_compared
    (type : VariableData) (hoverParams : HoverParams) :
  (matches type hoverParams = true →
   line (start (pos type)) = position_line hoverParams) ∧
  (∀ l, matches (set_end_line l type) hoverParams = matches type hoverParams) ∧
  (∀ records h, look_for records hoverParams = Some h →
     ∃ r, r ∈ records ∧ h = hover_of r ∧
          line (start (pos r)) = position_line hoverParams).
Proof.
  repeat split.
  - intros H. by apply matches_spec in H as [? _].
  - intros records h H.
    destruct (look_for_Some _ _ _ H) as (r&Hr&Hm&->).
    exists r. repeat split; try done. by apply matches_spec in Hm as [? _].
Qed.

(** ** The properties at work on concrete runs *)

(** Two operations chained on one key: the waiter returns after the
    second is fulfilled.  Two project checks in a row: the caller of the
    first is still waiting when the second is called, and has returned
    when the second check has run to its end. *)
Lemma C1_witness :
  fulfilled
    (run sample_hash [Settle 1 true; Then 1]
       (run sample_hash [Chain "k" (ExtOp 0); Chain "k" (ExtOp 1)]
          new_manager)) (ExtOp 1) = true
  ∧
  ∃ o,
    o ∈ TaskOp 1 ::
        chained sample_hash PROJECT_CHECK_STR (sample_completion 1)
          (run sample_hash [CallCheckProject sample_docs;
                            CallCheckProject sample_docs] new_manager) ∧
    fulfilled
      (run sample_hash (sample_completion 1)
         (run sample_hash [CallCheckProject sample_docs;
                           CallCheckProject sample_docs] new_manager))
      o = true.
Proof.
  split.
  - apply (proj1 (C1_waiters_follow_the_last_chained sample_hash) "k"
             [Chain "k" (ExtOp 0); Chain "k" (ExtOp 1)]
             [Settle 1 true; Then 1] [ExtOp 0] (ExtOp 1));
      vm_compute; reflexivity.
  - apply (proj1 (proj2 (C1_waiters_follow_the_last_chained sample_hash))
             PROJECT_CHECK_STR [CallCheckProject sample_docs] []
             (sample_completion 1) (CallCheckProject sample_docs) (TaskOp 1));
      vm_compute; [reflexivity | discriminate | reflexivity | reflexivity].
Defined.

Lemma C2_witness :
  (0 = 0 ∧
   check <$> _operation (run sample_hash [CallCheckProject sample_docs]
                           new_manager) = Some 0)
  ∧
  is_active
    (fst (checkProject sample_hash sample_docs
            (run sample_hash [CallCheckProject sample_docs] new_manager)))
    0 = false.
Proof.
  split.
  - apply (proj1 (C2_single_active_operation sample_hash)
             [CallCheckProject sample_docs] 0 0);
      vm_compute; reflexivity.
  - apply (proj2 (C2_single_active_operation sample_hash)
             [CallCheckProject sample_docs] sample_docs
             {| check := 0; hashes := sample_hash <$> sample_docs |}).
    vm_compute; reflexivity.
Defined.

(** The scenario of the specification: [a.php] and [b.php] are open with
    contents X and Y when the project is checked; [a.php] changed to Z
    starts a new project check, [a.php] still X does not, and neither
    does a file the operation has no hash for. *)
Lemma checkProjectIfFileChanged_compares_own_hashes_witness :
  let m := run sample_hash [CallCheckProject sample_docs] new_manager in
  (checkProjectIfFileChanged sample_hash "c.php" (Some "X") sample_docs m
   = (m, Returned)) ∧
  (checkProjectIfFileChanged sample_hash "a.php" (Some "X") sample_docs m
   = (m, Returned)) ∧
  (checkProjectIfFileChanged sample_hash "a.php" (Some "Z") sample_docs m
   = checkProject sample_hash sample_docs m).
Proof.
  assert (Hd : ∀ content, sample_hash content ≠ "") by (intros c; discriminate).
  assert (Ho : _operation (run sample_hash [CallCheckProject sample_docs]
                             new_manager)
               = Some {| check := 0; hashes := sample_hash <$> sample_docs |})
    by (vm_compute; reflexivity).
  intros m. split; [|split].
  - apply (checkProjectIfFileChanged_compares_own_hashes sample_hash Hd
             [CallCheckProject sample_docs] "c.php" "X" sample_docs _ Ho);
      [discriminate | reflexivity |]. left. vm_compute; reflexivity.
  - apply (checkProjectIfFileChanged_compares_own_hashes sample_hash Hd
             [CallCheckProject sample_docs] "a.php" "X" sample_docs _ Ho);
      [discriminate | reflexivity |]. right. vm_compute; reflexivity.
  - apply (proj2 (checkProjectIfFileChanged_compares_own_hashes sample_hash Hd
                    [CallCheckProject sample_docs] "a.php" "Z" sample_docs _ Ho
                    ltac:(discriminate) eq_refl) "#X");
      [vm_compute; reflexivity | discriminate].
Defined.

(** A document named [__proto__] is checked again on every
    notification, also with the content it was checked with. *)
Lemma inherited_keys_always_start_a_check_witness :
  let docs := <["__proto__" := "X"]> sample_docs in
  let m := run sample_hash [CallCheckProject docs] new_manager in
  checkProjectIfFileChanged sample_hash "__proto__" (Some "X") docs m
  = checkProject sample_hash docs m.
Proof.
  intros docs m.
  apply (inherited_keys_always_start_a_check sample_hash m
           {| check := 0; hashes := sample_hash <$> docs |} "__proto__" "X"
           docs); [vm_compute; reflexivity | discriminate | by left].
Defined.

(** With no operation active, [checkProjectIfFileChanged uri undefined]
    starts a project check. *)
Lemma C4_counterexample :
  _operation new_manager = None ∧
  checkProjectIfFileChanged sample_hash "file:///a.php" None ∅ new_manager
  ≠ (new_manager, Returned) ∧
  effects (fst (checkProjectIfFileChanged sample_hash "file:///a.php" None ∅
                  new_manager))
  = [CheckCreated 0 Project; Logged 0 "Check started for Project";
     StatusStart 0 "Checking project"] ∧
  is_active (fst (checkProjectIfFileChanged sample_hash "file:///a.php" None ∅
                    new_manager)) 0 = true.
Proof.
  repeat split; try (vm_compute; reflexivity).
  intros H. apply (f_equal snd) in H. vm_compute in H. discriminate.
Qed.

Lemma C4_witness :
  let m := run sample_hash [CallCheckProject sample_docs] new_manager in
  (checkProjectIfFileChanged sample_hash "a.php" None sample_docs m
   = (m, Returned) ∧
   checkProjectIfFileChanged sample_hash "a.php" (Some "") sample_docs m
   = (m, Returned)) ∧
  checkProjectIfFileChanged sample_hash "a.php" None sample_docs new_manager
  = checkProject sample_hash sample_docs new_manager.
Proof.
  intros m. split.
  - apply (proj1 (C4_undefined_content_after_the_slot_test sample_hash m
                    "a.php" sample_docs)
             {| check := 0; hashes := sample_hash <$> sample_docs |}).
    vm_compute; reflexivity.
  - apply (proj2 (C4_undefined_content_after_the_slot_test sample_hash
                    new_manager "a.php" sample_docs)).
    reflexivity.
Defined.

(** A project check whose timer fires. *)
Lemma C5_witness :
  let m0 := run sample_hash [CallCheckProject sample_docs; Step 0 Resumed]
              new_manager in
  let m := _checkShared_step 0 (GotConfig sample_config) m0 in
  let m1 := _checkShared_step 0 (Raced TimerFirst) m in
  let m2 := _checkShared_step 0 Resumed m1 in
  stage_of m 0 = Some (AwaitRace 60000%Z) ∧
  effects m1 = effects m ++ [CheckDisposed 0; TimeoutNotice 0;
                             StatusFinish 0 KILLED] ∧
  stage_of m2 0 = Some (AwaitFinish ReturnResult_killed).
Proof.
  intros m0 m m1 m2. split; [|split].
  - apply (proj1 (C5_timeout_kills_the_check m0 0
                    {| t_check := 0; t_type := Project; t_applyErrors := true;
                       t_description := "Project"; t_stage := AwaitConfig |}
                    ltac:(vm_compute; reflexivity)) sample_config).
    reflexivity.
  - apply (proj2 (C5_timeout_kills_the_check m 0
                    {| t_check := 0; t_type := Project; t_applyErrors := true;
                       t_description := "Project";
                       t_stage := AwaitRace 60000%Z |}
                    ltac:(vm_compute; reflexivity)) 60000%Z).
    reflexivity.
  - apply (proj2 (C5_timeout_kills_the_check m 0
                    {| t_check := 0; t_type := Project; t_applyErrors := true;
                       t_description := "Project";
                       t_stage := AwaitRace 60000%Z |}
                    ltac:(vm_compute; reflexivity)) 60000%Z).
    reflexivity.
Defined.

Lemma C6_witness :
  _getFileReport sample_parse sample_fs "file:///src/b.php" sample_hooks
  = (sample_hooks, JsNull) ∧
  snd (_getFileReport sample_parse sample_fs "file:///src/a.php" sample_hooks)
  = JsReport {| timestamp := 1; data := [sample_record] |} ∧
  snd (_getFileReport sample_parse ∅ "file:///src/a.php" sample_hooks)
  = JsNull ∧
  snd (_getFileReport sample_parse {[ "/tmp/reported.json" := "{" ]}
         "file:///src/a.php" sample_hooks) = JsNull.
Proof.
  split; [|split; [|split]].
  - apply (proj1 (C6_getFileReport_consumes_once sample_parse sample_fs
                    sample_fs "file:///src/b.php" sample_hooks)).
    vm_compute; reflexivity.
  - apply (proj1 (proj2 (C6_getFileReport_consumes_once sample_parse sample_fs
                           sample_fs "file:///src/a.php" sample_hooks))
             {| reportPath := "/tmp/reported.json";
                sourceFilePath := "/src/a.php" |}
             ltac:(vm_compute; reflexivity)) with "report" sample_reporterFile;
      vm_compute; reflexivity.
  - apply (proj1 (proj2 (C6_getFileReport_consumes_once sample_parse ∅
                           sample_fs "file:///src/a.php" sample_hooks))
             {| reportPath := "/tmp/reported.json";
                sourceFilePath := "/src/a.php" |}
             ltac:(vm_compute; reflexivity)).
    vm_compute; reflexivity.
  - apply (proj1 (proj2 (C6_getFileReport_consumes_once sample_parse
                           {[ "/tmp/reported.json" := "{" ]}
                           sample_fs "file:///src/a.php" sample_hooks))
             {| reportPath := "/tmp/reported.json";
                sourceFilePath := "/src/a.php" |}
             ltac:(vm_compute; reflexivity)) with "{";
      vm_compute; reflexivity.
Defined.

(** A query on the start character of the record: the position lies in
    the half-open interval, and the handler finds nothing. *)
Lemma C7_counterexample :
  spec_half_open_contains sample_record (sample_query 4) = true ∧
  hoverHandler false 2000 50 sample_parse (λ _, false) sample_fsPath
    sample_join
    (sample_env false) (sample_query 4) = Ret None.
Proof. split; vm_compute; reflexivity. Qed.

Lemma C7_witness :
  hoverHandler false 2000 50 sample_parse (λ _, false) sample_fsPath
    sample_join
    (sample_env false) (sample_query 5)
  = Ret (hover_of <$> head (filter (strictly_inside (sample_query 5))
                              (records_of sample_fsPath sample_reporterFile
                                 (sample_query 5)))).
Proof.
  apply (C7_hover_finds_first_record_strictly_inside false 2000 50
           sample_parse (λ _, false) sample_fsPath sample_join (sample_env false)
           (sample_query 5) "/ws" "report" sample_reporterFile);
    vm_compute; reflexivity.
Defined.

(** A record from 2:4 to 5:6 is found on line 2 and not on line 3. *)
Lemma C9_witness :
  line (start (pos (set_end_line 5 sample_record))) = 2%Z ∧
  look_for [set_end_line 5 sample_record]
    {| textDocument_uri := "file:///src/a.php"; position_line := 3;
       position_character := 5 |} = None.
Proof.
  split.
  - apply (proj1 (C9_only_the_start_line_is_compared
                    (set_end_line 5 sample_record) (sample_query 5))).
    vm_compute; reflexivity.
  - vm_compute; reflexivity.
Defined.

(** The query that finds [int $x] finds nothing once the token is seen
    cancelled after the read. *)
Lemma C10_witness :
  hoverHandler false 2000 50 sample_parse (λ _, false) sample_fsPath
    sample_join
    (sample_env true) (sample_query 5) = Ret None.
Proof.
  apply (C10_cancel_after_read_answers_null false 2000 50 sample_parse
           (λ _, false) sample_fsPath sample_join (sample_env true) (sample_query 5)
           "/ws" "report" sample_reporterFile);
    vm_compute; reflexivity.
Defined.

(** * Further properties of the manager *)

(** ** Outcomes are final *)

Lemma outcome_chain uri o m o' :
  outcome (_withRecursivePromise uri o m) o' = outcome m o'.
Proof. by destruct o'. Qed.

Lemma outcome_then k m o : outcome (run_then k m) o = outcome m o.
Proof.
  unfold run_then. destruct (thens m !! k) as [[o' q]|]; [|done].
  destruct (fulfilled m o'); [|done]. by destruct o.
Qed.

Lemma outcome_same m m' o :
  settled m' = settled m → tasks m' = tasks m → outcome m' o = outcome m o.
Proof. intros Hs Ht. destruct o; simpl; by rewrite ?Hs, ?Ht. Qed.

Lemma outcome_settle n ok m o b :
  outcome m o = Some b → outcome (settle n ok m) o = Some b.
Proof.
  unfold settle. destruct (settled m !! n) eqn:E; [done|].
  destruct o as [t|n']; simpl; [done|].
  intros H. destruct (decide (n = n')) as [->|Hne]; [congruence|].
  by rewrite lookup_insert_ne.
Qed.

Lemma outcome_more_tasks m m' ks o b :
  settled m' = settled m → tasks m' = tasks m ++ ks →
  outcome m o = Some b → outcome m' o = Some b.
Proof.
  intros Hs Ht. destruct o as [t|n]; simpl; rewrite ?Hs, ?Ht; [|done].
  destruct (tasks m !! t) as [k|] eqn:Ek; [|done].
  by rewrite (lookup_app_l_Some _ _ _ _ Ek).
Qed.

Lemma step_tasks t i m :
  tasks (_checkShared_step t i m)
  = match tasks m !! t with
    | Some k => <[t := with_stage (stage_after k i) k]> (tasks m)
    | None => tasks m
    end.
Proof.
  unfold _checkShared_step.
  destruct (tasks m !! t) as [k|] eqn:Ek; [|done].
  assert (Hid : ∀ s, t_stage k = s → tasks m = <[t := with_stage s k]> (tasks m)).
  { intros s <-. symmetry. apply list_insert_id. rewrite Ek. by destruct k. }
  assert (Hset : ∀ s m0, tasks m0 = tasks m →
            tasks (set_stage t s m0) = <[t := with_stage s k]> (tasks m)).
  { intros s m0 H0. simpl. rewrite H0. apply list_eq. intros j.
    destruct (decide (t = j)) as [<-|Hne].
    - rewrite list_lookup_alter_eq, Ek. simpl.
      rewrite list_lookup_insert_eq; [done|by eapply lookup_lt_Some].
    - by rewrite list_lookup_alter_ne, list_lookup_insert_ne. }
  unfold stage_after.
  destruct (t_stage k) eqn:Es, i as [| |[r|]|];
    try (apply Hid; done);
    unfold withTimeout, finish_with, onTimeout; by apply Hset.
Qed.

Lemma step_settled t i m : settled (_checkShared_step t i m) = settled m.
Proof.
  unfold _checkShared_step. destruct (tasks m !! t) as [k|]; [|done].
  by destruct (t_stage k), i as [| |[r|]|].
Qed.

Lemma outcome_step t i m o b :
  outcome m o = Some b → outcome (_checkShared_step t i m) o = Some b.
Proof.
  destruct o as [t'|n]; simpl; [|by rewrite step_settled].
  rewrite step_tasks. destruct (tasks m !! t) as [k|] eqn:Ek; [|done].
  destruct (decide (t = t')) as [<-|Hne].
  - rewrite Ek. simpl.
    rewrite list_lookup_insert_eq by by eapply lookup_lt_Some. simpl.
    unfold stage_after. by destruct (t_stage k), i as [| |[r|]|].
  - by rewrite list_lookup_insert_ne.
Qed.

Section OutcomeFacts.

Variable basicHash : string → string.

Lemma outcome_checkProject_begin docs m o b :
  outcome m o = Some b →
  outcome (fst (checkProject_begin basicHash docs m)) o = Some b.
Proof.
  intros H. eapply (outcome_more_tasks (kill_current m)); [done|done|].
  rewrite <- H. apply outcome_same; unfold kill_current;
    by destruct (_operation m).
Qed.

Lemma outcome_exec ev m o b :
  outcome m o = Some b → outcome (exec basicHash ev m) o = Some b.
Proof.
  intros H.
  destruct ev as [uri o'|n ok|k|docs|docs|uri content docs| | |t i];
    cbn [exec].
  - by rewrite outcome_chain.
  - by apply outcome_settle.
  - by rewrite outcome_then.
  - by apply outcome_checkProject_begin.
  - rewrite checkProject_chain, outcome_chain.
    by apply outcome_checkProject_begin.
  - rewrite checkProjectIfFileChanged_delegates.
    destruct (delegates _ _ _ _); [|done].
    rewrite checkProject_chain, outcome_chain.
    by apply outcome_checkProject_begin.
  - rewrite <- H. apply outcome_same; unfold clear, dispose;
      by destruct (_operation m).
  - rewrite <- H. apply outcome_same; unfold dispose;
      by destruct (_operation m).
  - by apply outcome_step.
Qed.

(** An outcome that is there stays what it is along every run. *)
Lemma outcomes_are_final (tr : list event) (m : manager) (o : op) (b : bool) :
  outcome m o = Some b → outcome (run basicHash tr m) o = Some b.
Proof.
  revert m. induction tr as [|ev tr IH]; simpl; auto using outcome_exec.
Qed.

End OutcomeFacts.

(** ** Waiters: progress *)

Lemma drain_leads (h : list cell) p q :
  (∀ a b, h !! a = Some (Resolved (Some b)) → a < b < length h) →
  leads h p q → h !! q = Some (Resolved None) →
  ∀ fuel, length h < fuel + p → drain fuel h p = Returned.
Proof.
  intros Hfwd Hl Hq. induction Hl as [p|p q r Hpq Hl IH]; intros fuel Hf.
  - destruct fuel as [|fuel]; [apply lookup_lt_Some in Hq; lia|].
    by apply drain_null.
  - destruct fuel as [|fuel]; [apply lookup_lt_Some in Hpq; lia|].
    rewrite (drain_link _ _ _ _ Hpq). destruct (Hfwd _ _ Hpq).
    apply IH; [done|lia].
Qed.

Lemma leads_grows (h h' : list cell) p q :
  (∀ a v, h !! a = Some (Resolved v) → h' !! a = Some (Resolved v)) →
  leads h p q → leads h' p q.
Proof.
  intros Hk Hl. induction Hl as [p|p q r Hpq Hl IH]; [constructor|].
  eapply leads_step; [by apply Hk|done].
Qed.

Section WaiterFacts.

Variable basicHash : string → string.

(** X3.  Progress of a waiter.  In a state the manager can reach, let a
    waiter stand on a cell whose links lead to the tail cell of a key.
    Once the operation of that tail is fulfilled, running its [then]
    callback makes the waiter return. *)
Theorem waiter_returns_once_tail_is_fulfilled
    (tr : list event) (uri : string) (p0 p : nat) (o : op) :
  let m := run basicHash tr new_manager in
  _filePromises m !! uri = Some p →
  leads (promises m) p0 p →
  tail_op m uri = Some o →
  fulfilled m o = true →
  resume (run_then p m) (Awaits p0) = Returned.
Proof.
  intros m Hp Hl Ho Hf.
  assert (I : gate_inv m) by apply gate_inv_run, gate_inv_new.
  assert (I' : gate_inv (run_then p m)) by by apply gate_inv_then.
  unfold tail_op in Ho. rewrite Hp in Ho.
  destruct (thens m !! p) as [[o' q]|] eqn:Et; [|done].
  injection Ho as ->. assert (q = p) as -> by exact (inv_idx m I _ _ _ Et).
  assert (Hnull : promises (run_then p m) !! p = Some (Resolved None)).
  { unfold run_then. rewrite Et, Hf. simpl. rewrite resolve_lookup_eq.
    by destruct (inv_tail m I _ _ Hp) as [-> | ->]. }
  unfold resume. eapply drain_leads; [apply (inv_link _ I')| |done|lia].
  eapply leads_grows; [|exact Hl]. intros a v. apply then_keeps.
Qed.

(** X4.  A rejected operation resolves nothing: [operation.then] is given
    no rejection handler.  When the operation chained last on a key has
    been rejected, a waiter issued on the key afterwards does not return
    for as long as nothing more is chained on the key. *)
Theorem rejected_operation_blocks_waiters
    (uri : string) (tr1 tr2 : list event) (ops : list op) (opN : op) :
  let m1 := run basicHash tr1 new_manager in
  let m2 := run basicHash tr2 m1 in
  chained basicHash uri tr1 new_manager = ops ++ [opN] →
  chained basicHash uri tr2 m1 = [] →
  rejected m1 opN = true →
  resume m2 (_getFilePromise uri m1) ≠ Returned.
Proof.
  intros m1 m2 Hch Hq Hrej Hres.
  assert (I1 : gate_inv m1) by apply gate_inv_run, gate_inv_new.
  assert (I2 : gate_inv m2) by by apply gate_inv_run.
  pose proof (tail_after_run basicHash tr1 new_manager uri gate_inv_new)
    as Ht1.
  rewrite Hch, foldl_app in Ht1. simpl in Ht1. fold m1 in Ht1.
  pose proof (tail_after_run basicHash tr2 m1 uri I1) as Ht2.
  rewrite Hq in Ht2. simpl in Ht2. fold m2 in Ht2.
  pose proof (quiet_filePromises basicHash tr2 m1 uri I1 Hq) as Hfp.
  fold m2 in Hfp. unfold _getFilePromise in Hres.
  destruct (_filePromises m1 !! uri) as [p|] eqn:Ep.
  - destruct (tail_returned m2 uri p _ I2 Hfp Hres) as (o&Ho&Hf).
    assert (o = opN) as -> by congruence.
    unfold rejected in Hrej.
    destruct (outcome m1 opN) as [[|]|] eqn:Eo; try done.
    pose proof (outcomes_are_final basicHash tr2 m1 opN false Eo) as Hfin.
    fold m2 in Hfin. unfold fulfilled in Hf. by rewrite Hfin in Hf.
  - unfold tail_op in Ht1. by rewrite Ep in Ht1.
Qed.

(** X5.  Keys do not interfere: chaining an operation on one key leaves
    a waiter issued on another key exactly where it was. *)
Theorem chains_on_other_keys_do_not_interfere
    (tr : list event) (uri uri' : string) (o : op) :
  let m := run basicHash tr new_manager in
  uri ≠ uri' →
  _getFilePromise uri (_withRecursivePromise uri' o m) = _getFilePromise uri m ∧
  resume (_withRecursivePromise uri' o m) (_getFilePromise uri m)
  = resume m (_getFilePromise uri m).
Proof.
  intros m Hne.
  assert (I : gate_inv m) by apply gate_inv_run, gate_inv_new.
  unfold _getFilePromise. rewrite chain_filePromises.
  rewrite lookup_insert_ne by done. split; [done|].
  destruct (_filePromises m !! uri) as [p|] eqn:Ep; [|done].
  unfold resume.
  assert (Hsame : promises (_withRecursivePromise uri' o m) !! p
                  = promises m !! p).
  { assert (Hlt : p < length (promises m)).
    { destruct (inv_tail m I _ _ Ep) as [H|H]; by apply lookup_lt_Some in H. }
    rewrite chain_promises.
    destruct (_filePromises m !! uri') as [prev|] eqn:Eprev.
    - rewrite resolve_lookup_ne; [by apply lookup_app_l|].
      intros ->. apply Hne. symmetry. by eapply inv_inj.
    - by apply lookup_app_l. }
  destruct (inv_tail m I _ _ Ep) as [Hc|Hc].
  - rewrite !drain_pending; [done|done|by rewrite Hsame].
  - rewrite !drain_null; [done|done|by rewrite Hsame].
Qed.

End WaiterFacts.

(** ** A project check from call to resolution *)

Lemma step_lookup t i m k :
  tasks m !! t = Some k →
  tasks (_checkShared_step t i m) !! t
  = Some (with_stage (stage_after k i) k).
Proof.
  intros Hk. rewrite step_tasks, Hk.
  apply list_lookup_insert_eq. by eapply lookup_lt_Some.
Qed.

Lemma frame_steps t (ins : list input) m :
  frame m (foldl (λ m i, _checkShared_step t i m) m ins).
Proof.
  revert m. induction ins as [|i ins IH]; intros m; [apply frame_refl|].
  simpl. eapply frame_trans; [apply frame_checkShared_step|apply IH].
Qed.

(** The inputs that wake a [_checkShared] call from its start to its
    end when every awaited call answers. *)
Lemma steps_finish t m k config first :
  tasks m !! t = Some k → t_stage k = AwaitStart →
  let ins := [Resumed; GotConfig config; Raced first]
             ++ match first with
                | TimerFirst => [Resumed]
                | OperationFirst _ => []
                end ++ [Resumed] in
  let m' := foldl (λ m i, _checkShared_step t i m) m ins in
  frame m m' ∧ t_stage <$> tasks m' !! t = Some Finished.
Proof.
  intros Hk Hs ins m'. split; [apply frame_steps|].
  subst m' ins. destruct k as [c ty a d st]. simpl in Hs. subst st.
  pose proof (step_lookup t Resumed _ _ Hk) as H1.
  pose proof (step_lookup t (GotConfig config) _ _ H1) as H2.
  pose proof (step_lookup t (Raced first) _ _ H2) as H3.
  destruct first as [r|]; simpl.
  - pose proof (step_lookup t Resumed _ _ H3) as H4. by rewrite H4.
  - pose proof (step_lookup t Resumed _ _ H3) as H4.
    pose proof (step_lookup t Resumed _ _ H4) as H5. by rewrite H5.
Qed.

(** The callback of a fulfilled tail operation lets the waiter on the
    tail return. *)
Lemma tail_callback_returns m uri p o :
  gate_inv m →
  _filePromises m !! uri = Some p →
  tail_op m uri = Some o →
  fulfilled m o = true →
  resume (run_then p m) (Awaits p) = Returned.
Proof.
  intros I Hp Ho Hf. unfold tail_op in Ho. rewrite Hp in Ho.
  destruct (thens m !! p) as [[o' q]|] eqn:Et; [|done].
  injection Ho as ->. assert (q = p) as -> by exact (inv_idx m I _ _ _ Et).
  unfold resume. apply drain_null.
  unfold run_then. rewrite Et, Hf. simpl. rewrite resolve_lookup_eq.
  by destruct (inv_tail m I _ _ Hp) as [-> | ->].
Qed.

Section CheckProjectFacts.

Variable basicHash : string → string.

Lemma checkProject_begin_tasks docs m :
  tasks (fst (checkProject_begin basicHash docs m))
  = tasks m ++ [{| t_check := length (checks m); t_type := Project;
                   t_applyErrors := true; t_description := "Project";
                   t_stage := AwaitStart |}].
Proof.
  unfold checkProject_begin, kill_current.
  destruct (_operation m); simpl; by rewrite ?length_alter.
Qed.

(** X6.  A project check from call to resolution.  In a state the
    manager can reach, the promise that [checkProject] returns is not
    resolved when the call returns.  Whatever happens afterwards, as long
    as nothing more is chained on the project key, it is resolved once
    the call's own [_checkShared] call has finished and the [then]
    callback on its cell has run.  Run on their own, the sections of
    that call do finish it, whether the check settled first (with any
    result) or its timer fired first. *)
Theorem checkProject_resolves_with_its_check
    (tr0 tr : list event) (docs : gmap string string) (config : Config)
    (first : race) :
  let m := run basicHash tr0 new_manager in
  let m1 := fst (checkProject basicHash docs m) in
  let w := snd (checkProject basicHash docs m) in
  let t := length (tasks m) in
  let p := length (promises m) in
  resume m1 w ≠ Returned ∧
  (chained basicHash PROJECT_CHECK_STR tr m1 = [] →
   stage_of (run basicHash tr m1) t = Some Finished →
   resume (run_then p (run basicHash tr m1)) w = Returned) ∧
  stage_of (run basicHash
              [Step t Resumed; Step t (GotConfig config); Step t (Raced first)]
              m1) t
  = Some (match first with
          | OperationFirst r => AwaitFinish r
          | TimerFirst => AwaitKilledFinish
          end) ∧
  resume (run basicHash (check_sections t p config first) m1) w = Returned.
Proof.
  intros m m1 w t p.
  set (mb := fst (checkProject_begin basicHash docs m)).
  assert (I : gate_inv m) by apply gate_inv_run, gate_inv_new.
  destruct (frame_checkProject_begin basicHash docs m) as (Hfb&Hpb&Htb&_).
  fold mb in Hfb, Hpb, Htb.
  assert (Ib : gate_inv mb)
    by (eapply gate_inv_frame; [apply frame_checkProject_begin|done]).
  assert (Hm1 : m1 = _withRecursivePromise PROJECT_CHECK_STR (TaskOp t) mb)
    by apply checkProject_chain.
  assert (I1 : gate_inv m1) by (rewrite Hm1; by apply gate_inv_chain).
  assert (Hw : w = Awaits p).
  { subst w p. unfold checkProject, checkProject_begin, kill_current,
      _getFilePromise.
    destruct (_operation m); simpl; by rewrite lookup_insert_eq. }
  assert (Hcell : promises m1 !! p = Some Pending).
  { rewrite Hm1. subst p. rewrite <- Hpb. by apply chain_new_cell. }
  assert (Htail : _filePromises m1 !! PROJECT_CHECK_STR = Some p).
  { rewrite Hm1, chain_filePromises, Hpb. apply lookup_insert_eq. }
  assert (Hop : tail_op m1 PROJECT_CHECK_STR = Some (TaskOp t)).
  { rewrite Hm1. by apply tail_op_chain. }
  assert (Htask : ∃ k, tasks m1 !! t = Some k ∧ t_stage k = AwaitStart).
  { eexists. split.
    - rewrite Hm1. cbn [_withRecursivePromise createPromise set_thens
        set_filePromises set_promises tasks]. unfold mb.
      rewrite checkProject_begin_tasks, lookup_app_r by done.
      by rewrite Nat.sub_diag.
    - done. }
  destruct Htask as (k&Hk&Hs).
  assert (Hgen : ∀ tr', chained basicHash PROJECT_CHECK_STR tr' m1 = [] →
            stage_of (run basicHash tr' m1) t = Some Finished →
            resume (run_then p (run basicHash tr' m1)) (Awaits p) = Returned).
  { intros tr' Hq Hfin.
    apply (tail_callback_returns _ PROJECT_CHECK_STR p (TaskOp t)).
    - by apply gate_inv_run.
    - by rewrite (quiet_filePromises basicHash tr' m1 _ I1 Hq).
    - rewrite (tail_after_run basicHash tr' m1 _ I1), Hq. done.
    - unfold fulfilled, outcome. unfold stage_of in Hfin. by rewrite Hfin. }
  rewrite Hw. split; [|split; [|split]].
  - unfold resume. by rewrite (drain_pending _ _ _ Hcell).
  - apply Hgen.
  - simpl. unfold stage_of.
    pose proof (step_lookup t Resumed _ _ Hk) as H1.
    pose proof (step_lookup t (GotConfig config) _ _ H1) as H2.
    rewrite (step_lookup t (Raced first) _ _ H2). simpl.
    destruct k as [c ty a d st]. simpl in Hs. subst st.
    by destruct first.
  - destruct (steps_finish t m1 k config first Hk Hs) as [_ Hfin].
    set (m' := foldl (λ m i, _checkShared_step t i m) m1 _) in *.
    assert (Hrun : ∃ ins, m' = run basicHash ins m1 ∧
              chained basicHash PROJECT_CHECK_STR ins m1 = [] ∧
              run basicHash (check_sections t p config first) m1
              = run_then p (run basicHash ins m1)).
    { subst m'. unfold check_sections. destruct first as [r|].
      - by exists [Step t Resumed; Step t (GotConfig config);
                   Step t (Raced (OperationFirst r)); Step t Resumed].
      - by exists [Step t Resumed; Step t (GotConfig config);
                   Step t (Raced TimerFirst); Step t Resumed; Step t Resumed]. }
    destruct Hrun as (ins&Hm'&Hq&->). apply Hgen; [done|].
    unfold stage_of. by rewrite <- Hm'.
Qed.

(** The operation that [checkProject] installs. *)
Lemma checkProject_operation (m : manager) (docs : gmap string string) :
  _operation (fst (checkProject basicHash docs m))
  = Some {| check := length (checks m); hashes := basicHash <$> docs |}.
Proof.
  unfold checkProject, checkProject_begin, kill_current.
  destruct (_operation m); simpl; by rewrite ?length_alter.
Qed.

(** X7.  Round trip of the hashes.  After [checkProject] has run with
    the open documents [docs], [checkProjectIfFileChanged] for an open
    document with the content it had starts nothing, whatever state the
    manager was in before and whatever the digest is.  The one key for
    which the assignment of the hash stores nothing, [__proto__], is
    left out. *)
Theorem unchanged_documents_start_nothing
    (m : manager) (docs docs' : gmap string string) (uri content : string) :
  let m1 := fst (checkProject basicHash docs m) in
  uri ≠ "__proto__" →
  docs !! uri = Some content →
  checkProjectIfFileChanged basicHash uri (Some content) docs' m1
  = (m1, Returned).
Proof.
  intros m1 Hu Hd.
  pose proof (checkProject_operation m docs) as Ho. fold m1 in Ho.
  unfold checkProjectIfFileChanged. rewrite Ho. simpl.
  rewrite (hashes_get_own _ uri (basicHash content) Hu)
    by (by rewrite lookup_fmap, Hd).
  rewrite String.eqb_refl, andb_false_r.
  by destruct (truthy content).
Qed.

(** X8.  A change notification is acted on once.  When the documents
    already hold the notified content, a second
    [checkProjectIfFileChanged] with the same content starts nothing,
    whether the first one started a project check or not.  The key
    [__proto__] is left out. *)
Theorem second_notification_starts_nothing
    (m : manager) (docs docs' : gmap string string) (uri content : string) :
  let m1 := fst (checkProjectIfFileChanged basicHash uri (Some content) docs m) in
  uri ≠ "__proto__" →
  docs !! uri = Some content →
  checkProjectIfFileChanged basicHash uri (Some content) docs' m1
  = (m1, Returned).
Proof.
  intros m1 Hu Hd. subst m1.
  rewrite (checkProjectIfFileChanged_delegates basicHash uri (Some content)
             docs m).
  destruct (delegates basicHash uri (Some content) m) eqn:Ed.
  - unfold checkProjectIfFileChanged at 1.
    rewrite checkProject_operation. simpl.
    rewrite (hashes_get_own _ uri (basicHash content) Hu)
      by (by rewrite lookup_fmap, Hd).
    rewrite String.eqb_refl, andb_false_r.
    by destruct (truthy content).
  - simpl. rewrite checkProjectIfFileChanged_delegates. by rewrite Ed.
Qed.

(** X9.  An empty digest hides every edit.  The stored hash is tested
    for truthiness before it is compared, so when the digest of a
    document's content is the empty string, no later content of that
    document starts a project check.  The key [__proto__] is left
    out. *)
Theorem empty_digest_hides_edits
    (m : manager) (docs docs' : gmap string string)
    (uri old content : string) :
  let m1 := fst (checkProject basicHash docs m) in
  uri ≠ "__proto__" →
  docs !! uri = Some old →
  basicHash old = EmptyString →
  checkProjectIfFileChanged basicHash uri (Some content) docs' m1
  = (m1, Returned).
Proof.
  intros m1 Hu Hd He.
  pose proof (checkProject_operation m docs) as Ho. fold m1 in Ho.
  unfold checkProjectIfFileChanged. rewrite Ho. simpl.
  rewrite (hashes_get_own _ uri EmptyString Hu)
    by (by rewrite lookup_fmap, Hd; simpl; rewrite He).
  simpl. by destruct (truthy content).
Qed.

(** X10.  [dispose] is idempotent, and after it every
    [checkProjectIfFileChanged] is a [checkProject] that disposes no
    runner: the project check it starts only creates one. *)
Theorem dispose_then_any_notification_checks
    (m : manager) (uri : string) (content : option string)
    (docs : gmap string string) :
  dispose (dispose m) = dispose m ∧
  checkProjectIfFileChanged basicHash uri content docs (dispose m)
  = checkProject basicHash docs (dispose m) ∧
  effects (fst (checkProject basicHash docs (dispose m)))
  = effects (dispose m)
    ++ [CheckCreated (length (checks m)) Project;
        Logged (length (checks m)) "Check started for Project";
        StatusStart (length (tasks m)) "Checking project"].
Proof.
  unfold dispose. destruct (_operation m) as [o|]; simpl.
  - repeat split. by rewrite length_alter, <- !app_assoc.
  - repeat split. by rewrite <- !app_assoc.
Qed.

End CheckProjectFacts.

(** Why X7 to X9 leave the key [__proto__] out: a document of that name
    is checked again on a notification with the very content it was
    checked with, and with a digest that is always empty as well. *)
Example proto_key_is_checked_again :
  let docs : gmap string string := {[ "__proto__" := "X" ]} in
  docs !! "__proto__" = Some "X" ∧
  (let m1 := fst (checkProject sample_hash docs new_manager) in
   checkProjectIfFileChanged sample_hash "__proto__" (Some "X") docs m1
   ≠ (m1, Returned)) ∧
  (let m1 := fst (checkProject empty_hash docs new_manager) in
   checkProjectIfFileChanged empty_hash "__proto__" (Some "Z") docs m1
   ≠ (m1, Returned)).
Proof.
  intros docs. split; [vm_compute; reflexivity|].
  split; intros m1 H; apply (f_equal snd) in H; vm_compute in H;
    discriminate.
Qed.

(** ** Guards are never given back *)

Lemma disposables_step t i m :
  ∃ l, _disposables (_checkShared_step t i m) = _disposables m ++ l.
Proof.
  unfold _checkShared_step. destruct (tasks m !! t) as [k|];
    [|exists []; by rewrite app_nil_r].
  destruct (t_stage k), i as [| |[r|]|];
    try (exists []; by rewrite app_nil_r).
  by exists [t].
Qed.

Section ResourceFacts.

Variable basicHash : string → string.

Lemma disposables_exec ev m :
  ∃ l, _disposables (exec basicHash ev m) = _disposables m ++ l.
Proof.
  destruct ev as [uri o|n ok|k|docs|docs|uri content docs| | |t i];
    cbn [exec]; try apply disposables_step; exists []; rewrite app_nil_r.
  - done.
  - unfold settle. by destruct (settled m !! n).
  - unfold run_then. destruct (thens m !! k) as [[o q]|]; [|done].
    by destruct (fulfilled m o).
  - unfold checkProject_begin, kill_current. by destruct (_operation m).
  - unfold checkProject, checkProject_begin, kill_current.
    by destruct (_operation m).
  - rewrite checkProjectIfFileChanged_delegates.
    destruct (delegates _ _ _ _); [|done].
    unfold checkProject, checkProject_begin, kill_current.
    by destruct (_operation m).
  - unfold clear, dispose. by destruct (_operation m).
  - unfold dispose. by destruct (_operation m).
Qed.

(** X12.  The timeout guards pushed on [_disposables] are never given
    back: along every run the list only grows at its end, and neither
    [dispose] nor [clear] touches it. *)
Theorem timeout_guards_are_never_released (tr : list event) (m : manager) :
  _disposables m `prefix_of` _disposables (run basicHash tr m) ∧
  _disposables (dispose m) = _disposables m ∧
  _disposables (clear m) = _disposables m.
Proof.
  split; [|unfold clear, dispose; by destruct (_operation m)].
  revert m. induction tr as [|ev tr IH]; intros m; [done|]. simpl.
  destruct (disposables_exec ev m) as [l Hl].
  etrans; [|apply IH]. rewrite Hl. by apply prefix_app_r.
Qed.

End ResourceFacts.

(** X13.  What a timeout reports.  For a project check the guard is
    armed with [projectTimeout], yet the error shown and the line logged
    by [_onTimeout] both give [timeout]; the error is left out when
    [suppressTimeoutMessage] is set, the log line never is; and the
    first action of the error opens the setting of the check's own
    type. *)
Theorem timeout_notice_reports_the_file_timeout
    (m : manager) (t : nat) (k : task) (config : Config) :
  tasks m !! t = Some k →
  t_stage k = AwaitConfig →
  t_type k = Project →
  let notices := _onTimeout (t_check k) (t_type k) config in
  stage_of (_checkShared_step t (GotConfig config) m) t
  = Some (AwaitRace (projectTimeout config)) ∧
  (∀ n, n ∈ notices → notice_ms n = timeout config) ∧
  LogTimedOut (t_check k) (timeout config) ∈ notices ∧
  (suppressTimeoutMessage config = true →
   notices = [LogTimedOut (t_check k) (timeout config)]) ∧
  (suppressTimeoutMessage config = false →
   ∃ rest, notices
           = [ShowError (timeout config)
                (("Adjust timeout", "phpstan.projectCheckTimeout") :: rest);
              LogTimedOut (t_check k) (timeout config)]).
Proof.
  intros Hk Hs Hty notices. subst notices. unfold _onTimeout. rewrite Hty.
  split.
  { unfold stage_of. rewrite (step_lookup _ _ _ _ Hk). simpl.
    unfold stage_after. by rewrite Hs, Hty. }
  destruct (suppressTimeoutMessage config); simpl.
  - repeat split; try done.
    + intros n Hn. apply list_elem_of_singleton in Hn. by subst.
    + apply list_elem_of_singleton. done.
  - repeat split; try done.
    + intros n Hn. apply elem_of_cons in Hn as [->|Hn]; [done|].
      apply list_elem_of_singleton in Hn. by subst.
    + apply elem_of_cons. right. by apply list_elem_of_singleton.
    + intros _. eauto.
Qed.

(** * Further properties of the hover provider *)

Lemma look_for_app l1 l2 hoverParams :
  look_for (l1 ++ l2) hoverParams
  = match look_for l1 hoverParams with
    | Some h => Some h
    | None => look_for l2 hoverParams
    end.
Proof.
  induction l1 as [|type l1 IH]; [done|]. simpl.
  by destruct (matches type hoverParams).
Qed.

Lemma look_for_none records hoverParams :
  Forall (λ type, matches type hoverParams = false) records →
  look_for records hoverParams = None.
Proof.
  induction 1 as [|type rest Ht _ IH]; [done|]. simpl. by rewrite Ht.
Qed.

(** X14.  The first match wins.  When no record before [type] matches
    the query and [type] does, the scan answers with [type], whatever
    records follow it, also when a later record matches as well. *)
Theorem first_matching_record_wins
    (pre post : list VariableData) (type : VariableData)
    (hoverParams : HoverParams) :
  Forall (λ r, matches r hoverParams = false) pre →
  matches type hoverParams = true →
  look_for (pre ++ type :: post) hoverParams = Some (hover_of type).
Proof.
  intros Hpre Hm. rewrite look_for_app, (look_for_none _ _ Hpre). simpl.
  by rewrite Hm.
Qed.

Lemma poll_from_ext {R} polls n (cb cb' : nat → option R) :
  (∀ i, cb i = cb' i) → poll_from polls n cb = poll_from polls n cb'.
Proof.
  intros H. revert n. induction polls as [|polls IH]; intros n; [done|].
  simpl. rewrite H. destruct (cb' n); [done|apply IH].
Qed.

Section HoverMore.

Variable NO_CANCEL_OPERATIONS : bool.
Variables MAX_HOVER_WAIT_TIME HOVER_WAIT_CHUNK_TIME : nat.
Variable JSON_parse : string → option ReporterFile.
Variable JSON_null : string → bool.
Variable fsPath : string → string.
Variable path_join : string → string → string.

Local Abbreviation handler :=
  (hoverHandler NO_CANCEL_OPERATIONS MAX_HOVER_WAIT_TIME HOVER_WAIT_CHUNK_TIME
     JSON_parse JSON_null fsPath path_join).

Local Abbreviation wait env :=
  (waitPeriodical MAX_HOVER_WAIT_TIME HOVER_WAIT_CHUNK_TIME
     (poll_callback NO_CANCEL_OPERATIONS env)).

(** X15.  The handler answers with a hover only after the check was seen
    done: an answer means that there is a workspace folder, that the
    token was not seen cancelled on entry nor after the read, that the
    wait ended with [checkDone], that the report file was read and
    parsed, and that the answer is the text of a record of the queried
    file which starts on the line of the query and strictly encloses its
    character. *)
Theorem hover_answers_only_after_done env hoverParams h :
  handler env hoverParams = Ret (Some h) →
  ∃ workspaceFolder text reporterFile type,
    getWorkspaceFolder env = Some workspaceFolder ∧
    truthy workspaceFolder = true ∧
    negb NO_CANCEL_OPERATIONS && cancelled_on_entry env = false ∧
    wait env = Some checkDone ∧
    files env !! path_join workspaceFolder "reported.json" = Some text ∧
    JSON_parse text = Some reporterFile ∧
    negb NO_CANCEL_OPERATIONS && cancelled_after_read env = false ∧
    type ∈ records_of fsPath reporterFile hoverParams ∧
    strictly_inside hoverParams type ∧
    h = hover_of type.
Proof.
  unfold hoverHandler.
  destruct (getWorkspaceFolder env) as [wf|]; [|done].
  destruct (truthy wf) eqn:Et; [|done]. simpl.
  destruct (negb NO_CANCEL_OPERATIONS && cancelled_on_entry env) eqn:Ec;
    [done|].
  destruct (waitPeriodical _ _ _) as [[|]|] eqn:Ew; try done.
  destruct (files env !! _) as [text|] eqn:Ef; [|done].
  destruct (JSON_parse text) as [rf|] eqn:Ep;
    [|by destruct (JSON_null text),
           (negb NO_CANCEL_OPERATIONS && cancelled_after_read env)].
  destruct (negb NO_CANCEL_OPERATIONS && cancelled_after_read env) eqn:El;
    [done|].
  intros [= Hl]. destruct (look_for_Some _ _ _ Hl) as (type&Hin&Hm&->).
  exists wf, text, rf, type. repeat split; try done;
    apply matches_spec in Hm; apply Hm.
Qed.

(** X16.  What a bad report does to a hover.  Once the check was seen
    done, a report file that is missing or that [JSON.parse] rejects
    makes the handler throw (its read is not guarded).  A report that
    parses to [null] makes it throw as well, at the member access of the
    scan, unless the token is seen cancelled after the read, which is
    tested first and gives the answer [null].  A report that parses to
    an object with no entry for the queried file gives the answer
    [null]. *)
Theorem hover_throws_on_unreadable_report env hoverParams workspaceFolder :
  getWorkspaceFolder env = Some workspaceFolder →
  truthy workspaceFolder = true →
  negb NO_CANCEL_OPERATIONS && cancelled_on_entry env = false →
  wait env = Some checkDone →
  (files env !! path_join workspaceFolder "reported.json" = None →
   handler env hoverParams = Throw) ∧
  (∀ text, files env !! path_join workspaceFolder "reported.json" = Some text →
     JSON_parse text = None → JSON_null text = false →
     handler env hoverParams = Throw) ∧
  (∀ text, files env !! path_join workspaceFolder "reported.json" = Some text →
     JSON_parse text = None → JSON_null text = true →
     handler env hoverParams
     = if negb NO_CANCEL_OPERATIONS && cancelled_after_read env
       then Ret None else Throw) ∧
  (∀ text reporterFile,
     files env !! path_join workspaceFolder "reported.json" = Some text →
     JSON_parse text = Some reporterFile →
     reporterFile !! fsPath (textDocument_uri hoverParams) = None →
     handler env hoverParams = Ret None).
Proof.
  intros Hw Ht Hc Hd. unfold hoverHandler. rewrite Hw, Ht, Hc, Hd. simpl.
  split; [|split; [|split]].
  - by intros ->.
  - by intros text -> -> ->.
  - by intros text -> -> ->.
  - intros text rf -> -> Hr. unfold records_of. rewrite Hr. simpl.
    by destruct (negb NO_CANCEL_OPERATIONS && cancelled_after_read env).
Qed.

End HoverMore.

(** X17.  With [NO_CANCEL_OPERATIONS] set the token is never looked at:
    two runs of the handler that differ only in what the token shows, on
    entry, at the polls or after the read, end the same way. *)
Theorem no_cancel_operations_ignores_the_token
    (MAX_HOVER_WAIT_TIME HOVER_WAIT_CHUNK_TIME : nat)
    (JSON_parse : string → option ReporterFile) (JSON_null : string → bool)
    (fsPath : string → string) (path_join : string → string → string)
    (env env' : HoverEnv) (hoverParams : HoverParams) :
  getWorkspaceFolder env' = getWorkspaceFolder env →
  (∀ n, done_at_poll env' n = done_at_poll env n) →
  files env' = files env →
  hoverHandler true MAX_HOVER_WAIT_TIME HOVER_WAIT_CHUNK_TIME JSON_parse
    JSON_null fsPath path_join env' hoverParams
  = hoverHandler true MAX_HOVER_WAIT_TIME HOVER_WAIT_CHUNK_TIME JSON_parse
      JSON_null fsPath path_join env hoverParams.
Proof.
  intros Hw Hd Hf. unfold hoverHandler, waitPeriodical. rewrite Hw, Hf.
  rewrite (poll_from_ext _ _ (poll_callback true env')
             (poll_callback true env)); [done|].
  intros i. unfold poll_callback. simpl. by rewrite Hd.
Qed.

(** * Further properties of the hover hooks *)

Section HooksMore.

Variable JSON_parse : string → option ReporterFile.

(** X18.  [_getFileReport] answers [undefined], not [null], when the
    report file parses and has no entry for the reserved source path,
    provided the path names no member of [Object.prototype]; when it
    names one, the answer is that inherited member, which is no report.
    Consuming the reservation of one key leaves the reservations of all
    other keys and the stored reports as they were. *)
Theorem getFileReport_undefined_and_frame
    (fs : gmap string string) (uri : string) (st : hooks)
    (match_ : reservation) :
  _operationMap st !! uri = Some match_ →
  let st1 := fst (_getFileReport JSON_parse fs uri st) in
  (∀ file parsed, fs !! reportPath match_ = Some file →
     JSON_parse file = Some parsed →
     parsed !! sourceFilePath match_ = None →
     snd (_getFileReport JSON_parse fs uri st)
     = if inherited_member (sourceFilePath match_) then JsInherited
       else JsUndefined) ∧
  (∀ uri', uri' ≠ uri → _operationMap st1 !! uri' = _operationMap st !! uri') ∧
  _reports st1 = _reports st.
Proof.
  intros Hm st1. subst st1. unfold _getFileReport. rewrite Hm.
  split; [|split].
  - intros file parsed -> -> Hr. simpl. unfold js_get. rewrite Hr.
    by destruct (inherited_member _).
  - intros uri' Hne.
    destruct (fs !! reportPath match_) as [file|];
      [destruct (JSON_parse file)|]; simpl; by rewrite lookup_delete_ne.
  - by destruct (fs !! reportPath match_) as [file|];
      [destruct (JSON_parse file)|].
Qed.


End HooksMore.

(** * Properties of [transformArgs] *)

Lemma substring_all (s : string) : String.substring 0 (String.length s) s = s.
Proof. induction s as [|c s IH]; [done|]. simpl. by rewrite IH. Qed.

Lemma autoload_turn_with_value path next userAutoloadFile :
  autoload_turn ("--autoload-file=" +:+ path) next userAutoloadFile = JStr path.
Proof.
  unfold autoload_turn. simpl.
  rewrite Nat.sub_0_r. by rewrite substring_all.
Qed.

Lemma autoload_turn_other arg next userAutoloadFile :
  is_autoload_arg arg = false →
  autoload_turn arg next userAutoloadFile = userAutoloadFile.
Proof.
  unfold is_autoload_arg, autoload_turn. intros H.
  apply orb_false_iff in H as [-> ->]. done.
Qed.

Lemma find_autoload_others args userAutoloadFile :
  Forall (λ a, is_autoload_arg a = false) args →
  find_autoload args userAutoloadFile = userAutoloadFile.
Proof.
  induction 1 as [|arg rest Ha _ IH]; [done|]. simpl.
  by rewrite (autoload_turn_other _ _ _ Ha).
Qed.

Lemma find_autoload_app pre arg post userAutoloadFile :
  ∃ acc, find_autoload (pre ++ arg :: post) userAutoloadFile
         = find_autoload (arg :: post) acc.
Proof.
  revert userAutoloadFile. induction pre as [|a pre IH]; intros u; [eauto|].
  simpl. apply IH.
Qed.

Lemma find_autoload_last pre arg post userAutoloadFile :
  is_autoload_arg arg = true →
  Forall (λ a, is_autoload_arg a = false) post →
  find_autoload (pre ++ arg :: post) userAutoloadFile
  = autoload_turn arg (arg_at post 0) JNull.
Proof.
  intros Ha Hpost.
  destruct (find_autoload_app pre arg post userAutoloadFile) as [acc ->].
  simpl. rewrite (find_autoload_others _ _ Hpost).
  unfold is_autoload_arg in Ha. unfold autoload_turn.
  destruct (String.eqb arg "-a"); [done|]. simpl in Ha. by rewrite Ha.
Qed.

(** X20.  The last autoload flag decides.  The loop of [transformArgs]
    leaves the variable alone on arguments that are neither [-a] nor
    start with [--autoload-file]; after the last argument that is, the
    variable holds the text after [--autoload-file=], or for [-a] the
    argument that follows, which is [undefined] when [-a] comes last. *)
Theorem last_autoload_flag_decides
    (pre post : list string) (path : string) (userAutoloadFile : js_str) :
  Forall (λ a, is_autoload_arg a = false) post →
  find_autoload post userAutoloadFile = userAutoloadFile ∧
  find_autoload (pre ++ ("--autoload-file=" +:+ path) :: post) userAutoloadFile
  = JStr path ∧
  find_autoload (pre ++ "-a" :: post) userAutoloadFile = arg_at post 0 ∧
  find_autoload (pre ++ ["-a"]) userAutoloadFile = JUndefined.
Proof.
  intros Hpost. split; [by apply find_autoload_others|].
  split; [|split].
  - rewrite find_autoload_last; [apply autoload_turn_with_value|done|done].
  - by rewrite find_autoload_last.
  - by rewrite find_autoload_last.
Qed.

Section AutoloadFacts.

Variable path_join : string → string → string.
Variable path_dirname : string → string.
Variable String_replace : string → string → string → string.
Variable TREE_FETCHER_FILE : string.
Variable JSON_parse : string → option ReporterFile.

Local Abbreviation content :=
  (autoloadFileContent path_dirname).

Local Abbreviation transform :=
  (transformArgs path_join path_dirname String_replace TREE_FETCHER_FILE).

(** X21.  A flag without a usable value counts for nothing: when the
    arguments end in [-a], or their last autoload flag is
    [--autoload-file=] with nothing after the sign, the autoload file
    that is written is the one written for no flag at all. *)
Theorem flags_without_value_are_ignored
    (pre post : list string) (treeFetcherTmpFilePath : string) :
  Forall (λ a, is_autoload_arg a = false) post →
  content (find_autoload (pre ++ ["-a"]) JNull) treeFetcherTmpFilePath
  = content JNull treeFetcherTmpFilePath ∧
  content (find_autoload (pre ++ "--autoload-file=" :: post) JNull)
    treeFetcherTmpFilePath
  = content JNull treeFetcherTmpFilePath ∧
  content (find_autoload post JNull) treeFetcherTmpFilePath
  = content JNull treeFetcherTmpFilePath.
Proof.
  intros Hpost. split; [|split].
  - by rewrite find_autoload_last.
  - rewrite find_autoload_last by done. done.
  - by rewrite find_autoload_others.
Qed.

(** X22.  From [transformArgs] to the report.  When the tree fetcher can
    be read, [transformArgs] returns the arguments followed by [-a] and
    the autoload file in the temporary directory, hands the directory
    over for cleanup, and reserves the report of that directory for the
    key: [_getFileReport] for the key then answers with the entry of
    that report for the checked file.  When the tree fetcher cannot be
    read, it throws and leaves files, reservations and cleanup list as
    they were. *)
Theorem transformArgs_reserves_the_report
    (config_args args : list string) (tmpDir uri filePath : string)
    (w : world) :
  (∀ text, w_files w !! TREE_FETCHER_FILE = Some text →
     let w' := fst (transform config_args args tmpDir uri filePath w) in
     snd (transform config_args args tmpDir uri filePath w)
     = Ret (args ++ ["-a"; path_join tmpDir "autoload.php"]) ∧
     w_disposables w' = w_disposables w ++ [tmpDir] ∧
     w_files w' !! path_join tmpDir "autoload.php"
     = Some (content (find_autoload config_args JNull)
               (path_join tmpDir "TreeFetcher.php")) ∧
     (∀ uri', uri' ≠ uri →
        _operationMap (w_hooks w') !! uri' = _operationMap (w_hooks w) !! uri') ∧
     (∀ fs file parsed report,
        fs !! path_join tmpDir "reported.json" = Some file →
        JSON_parse file = Some parsed →
        parsed !! filePath = Some report →
        snd (_getFileReport JSON_parse fs uri (w_hooks w')) = JsReport report))
  ∧
  (w_files w !! TREE_FETCHER_FILE = None →
   transform config_args args tmpDir uri filePath w = (w, Throw)).
Proof.
  unfold transformArgs, _getAutoloadFile. split.
  - intros text ->. simpl. repeat split.
    + apply lookup_insert_eq.
    + intros uri' Hne. by apply lookup_insert_ne.
    + intros fs file parsed report Hf Hp Hr. unfold _getFileReport. simpl.
      rewrite lookup_insert_eq. simpl. rewrite Hf, Hp. unfold js_get.
      by rewrite Hr.
  - by intros ->.
Qed.

End AutoloadFacts.

(** ** The further properties at work on concrete runs *)

(** The waiter of a superseded operation returns with the callback of
    the superseding one. *)
Lemma waiter_returns_once_tail_is_fulfilled_witness :
  resume (run_then 1
            (run sample_hash [Chain "k" (ExtOp 0); Chain "k" (ExtOp 1);
                              Settle 1 true] new_manager)) (Awaits 0)
  = Returned.
Proof.
  apply (waiter_returns_once_tail_is_fulfilled sample_hash
           [Chain "k" (ExtOp 0); Chain "k" (ExtOp 1); Settle 1 true]
           "k" 0 1 (ExtOp 1)).
  - vm_compute; reflexivity.
  - apply (leads_step _ 0 1 1); [vm_compute; reflexivity|apply leads_here].
  - vm_compute; reflexivity.
  - vm_compute; reflexivity.
Defined.

Lemma rejected_operation_blocks_waiters_witness :
  resume (run sample_hash [Then 0; Settle 0 true; CallCheckProject sample_docs]
            (run sample_hash [Chain "k" (ExtOp 0); Settle 0 false]
               new_manager))
    (_getFilePromise "k"
       (run sample_hash [Chain "k" (ExtOp 0); Settle 0 false] new_manager))
  ≠ Returned.
Proof.
  apply (rejected_operation_blocks_waiters sample_hash "k"
           [Chain "k" (ExtOp 0); Settle 0 false]
           [Then 0; Settle 0 true; CallCheckProject sample_docs]
           [] (ExtOp 0)); vm_compute; reflexivity.
Defined.

Lemma chains_on_other_keys_do_not_interfere_witness :
  resume (_withRecursivePromise "a.php" (ExtOp 1)
            (run sample_hash [CallCheckProject sample_docs] new_manager))
    (_getFilePromise PROJECT_CHECK_STR
       (run sample_hash [CallCheckProject sample_docs] new_manager))
  = resume (run sample_hash [CallCheckProject sample_docs] new_manager)
      (_getFilePromise PROJECT_CHECK_STR
         (run sample_hash [CallCheckProject sample_docs] new_manager)).
Proof.
  apply (chains_on_other_keys_do_not_interfere sample_hash
           [CallCheckProject sample_docs] PROJECT_CHECK_STR "a.php" (ExtOp 1)).
  discriminate.
Defined.

Lemma unchanged_documents_start_nothing_witness :
  checkProjectIfFileChanged sample_hash "b.php" (Some "Y") ∅
    (fst (checkProject sample_hash sample_docs new_manager))
  = (fst (checkProject sample_hash sample_docs new_manager), Returned).
Proof.
  apply (unchanged_documents_start_nothing sample_hash new_manager sample_docs
           ∅ "b.php" "Y"); [discriminate | vm_compute; reflexivity].
Defined.

(** [a.php] was checked with content X and now holds Z: the first
    notification starts a check, the second does not. *)
Lemma second_notification_starts_nothing_witness :
  let docs := <["a.php" := "Z"]> sample_docs in
  let m := fst (checkProject sample_hash sample_docs new_manager) in
  let m1 := fst (checkProjectIfFileChanged sample_hash "a.php" (Some "Z")
                   docs m) in
  checkProjectIfFileChanged sample_hash "a.php" (Some "Z") docs m1
  = (m1, Returned).
Proof.
  intros docs m m1.
  apply (second_notification_starts_nothing sample_hash m docs docs
           "a.php" "Z"); [discriminate | vm_compute; reflexivity].
Defined.

Lemma empty_digest_hides_edits_witness :
  checkProjectIfFileChanged empty_hash "a.php" (Some "Z") sample_docs
    (fst (checkProject empty_hash sample_docs new_manager))
  = (fst (checkProject empty_hash sample_docs new_manager), Returned).
Proof.
  apply (empty_digest_hides_edits empty_hash new_manager sample_docs
           sample_docs "a.php" "X" "Z");
    [discriminate | vm_compute; reflexivity | vm_compute; reflexivity].
Defined.

Lemma timeout_notice_reports_the_file_timeout_witness :
  let m := run sample_hash [CallCheckProject sample_docs; Step 0 Resumed]
             new_manager in
  stage_of (_checkShared_step 0 (GotConfig sample_config) m) 0
  = Some (AwaitRace 60000%Z) ∧
  ∀ n, n ∈ _onTimeout 0 Project sample_config → notice_ms n = 10000%Z.
Proof.
  intros m.
  pose proof (timeout_notice_reports_the_file_timeout m 0
                {| t_check := 0; t_type := Project; t_applyErrors := true;
                   t_description := "Project"; t_stage := AwaitConfig |}
                sample_config ltac:(vm_compute; reflexivity) eq_refl eq_refl)
    as (H1&H2&_).
  split; [exact H1|exact H2].
Defined.

(** Two records enclose the query; the one listed first is reported. *)
Lemma first_matching_record_wins_witness :
  look_for [sample_record_far; sample_record_wide; sample_record]
    (sample_query 5)
  = Some (hover_of sample_record_wide).
Proof.
  apply (first_matching_record_wins [sample_record_far] [sample_record]
           sample_record_wide (sample_query 5));
    [repeat constructor | vm_compute; reflexivity].
Defined.

Lemma hover_answers_only_after_done_witness :
  ∃ workspaceFolder text reporterFile type,
    getWorkspaceFolder (sample_env false) = Some workspaceFolder ∧
    truthy workspaceFolder = true ∧
    negb false && cancelled_on_entry (sample_env false) = false ∧
    waitPeriodical 2000 50 (poll_callback false (sample_env false))
    = Some checkDone ∧
    files (sample_env false) !! sample_join workspaceFolder "reported.json"
    = Some text ∧
    sample_parse text = Some reporterFile ∧
    negb false && cancelled_after_read (sample_env false) = false ∧
    type ∈ records_of sample_fsPath reporterFile (sample_query 5) ∧
    strictly_inside (sample_query 5) type ∧
    {| contents := ["PHPStan: `int $x`"] |} = hover_of type.
Proof.
  apply (hover_answers_only_after_done false 2000 50 sample_parse
           (λ _, false) sample_fsPath sample_join (sample_env false) (sample_query 5)).
  vm_compute; reflexivity.
Defined.

(** The report does not parse; and the report is [null], with the token
    cancelled after the read or not. *)
Lemma hover_throws_on_unreadable_report_witness :
  hoverHandler false 2000 50 (λ _, None) (λ _, false) sample_fsPath
    sample_join (sample_env false) (sample_query 5) = Throw ∧
  hoverHandler false 2000 50 (λ _, None) (λ _, true) sample_fsPath
    sample_join (sample_env false) (sample_query 5) = Throw ∧
  hoverHandler false 2000 50 (λ _, None) (λ _, true) sample_fsPath
    sample_join (sample_env true) (sample_query 5) = Ret None.
Proof.
  split; [|split].
  - apply (proj1 (proj2 (hover_throws_on_unreadable_report false 2000 50
                           (λ _, None) (λ _, false) sample_fsPath sample_join
                           (sample_env false) (sample_query 5) "/ws"
                           ltac:(vm_compute; reflexivity)
                           ltac:(vm_compute; reflexivity)
                           ltac:(vm_compute; reflexivity)
                           ltac:(vm_compute; reflexivity))) "report");
      vm_compute; reflexivity.
  - apply (proj1 (proj2 (proj2 (hover_throws_on_unreadable_report false 2000
                           50 (λ _, None) (λ _, true) sample_fsPath
                           sample_join (sample_env false) (sample_query 5)
                           "/ws"
                           ltac:(vm_compute; reflexivity)
                           ltac:(vm_compute; reflexivity)
                           ltac:(vm_compute; reflexivity)
                           ltac:(vm_compute; reflexivity)))) "report");
      vm_compute; reflexivity.
  - apply (proj1 (proj2 (proj2 (hover_throws_on_unreadable_report false 2000
                           50 (λ _, None) (λ _, true) sample_fsPath
                           sample_join (sample_env true) (sample_query 5)
                           "/ws"
                           ltac:(vm_compute; reflexivity)
                           ltac:(vm_compute; reflexivity)
                           ltac:(vm_compute; reflexivity)
                           ltac:(vm_compute; reflexivity)))) "report");
      vm_compute; reflexivity.
Defined.

Lemma no_cancel_operations_ignores_the_token_witness :
  hoverHandler true 2000 50 sample_parse (λ _, false) sample_fsPath
    sample_join
    (sample_env true) (sample_query 5)
  = hoverHandler true 2000 50 sample_parse (λ _, false) sample_fsPath
    sample_join
      (sample_env false) (sample_query 5).
Proof.
  apply (no_cancel_operations_ignores_the_token 2000 50 sample_parse
           (λ _, false) sample_fsPath sample_join (sample_env false) (sample_env true)
           (sample_query 5)); [reflexivity | intros n; reflexivity | reflexivity].
Defined.

(** The report parses and has no entry for the reserved source path;
    and a reserved source path that names a member of [Object.prototype]. *)
Lemma getFileReport_undefined_and_frame_witness :
  snd (_getFileReport sample_parse sample_fs "file:///src/b.php"
         (reserve "file:///src/b.php" "/tmp/reported.json" "/src/b.php"
            sample_hooks)) = JsUndefined ∧
  snd (_getFileReport sample_parse sample_fs "file:///src/b.php"
         (reserve "file:///src/b.php" "/tmp/reported.json" "toString"
            sample_hooks)) = JsInherited.
Proof.
  split.
  - apply (proj1 (getFileReport_undefined_and_frame sample_parse sample_fs
                    "file:///src/b.php"
                    (reserve "file:///src/b.php" "/tmp/reported.json"
                       "/src/b.php" sample_hooks)
                    {| reportPath := "/tmp/reported.json";
                       sourceFilePath := "/src/b.php" |}
                    ltac:(vm_compute; reflexivity))
             "report" sample_reporterFile); vm_compute; reflexivity.
  - apply (proj1 (getFileReport_undefined_and_frame sample_parse sample_fs
                    "file:///src/b.php"
                    (reserve "file:///src/b.php" "/tmp/reported.json"
                       "toString" sample_hooks)
                    {| reportPath := "/tmp/reported.json";
                       sourceFilePath := "toString" |}
                    ltac:(vm_compute; reflexivity))
             "report" sample_reporterFile); vm_compute; reflexivity.
Defined.

Lemma last_autoload_flag_decides_witness :
  find_autoload ["-a"; "old.php"; "--autoload-file=new.php"; "analyse"] JNull
  = JStr "new.php".
Proof.
  apply (proj1 (proj2 (last_autoload_flag_decides ["-a"; "old.php"]
                         ["analyse"] "new.php" JNull
                         ltac:(repeat constructor)))).
Defined.

Lemma flags_without_value_are_ignored_witness :
  autoloadFileContent sample_dirname
    (find_autoload ["analyse"; "-a"] JNull) "/tmp/x/TreeFetcher.php"
  = autoloadFileContent sample_dirname JNull "/tmp/x/TreeFetcher.php".
Proof.
  apply (proj1 (flags_without_value_are_ignored sample_dirname ["analyse"] []
                  "/tmp/x/TreeFetcher.php" ltac:(constructor))).
Defined.

(** Arguments are transformed for [a.php]; the check then writes the
    report of the scenario into the temporary directory. *)
Lemma transformArgs_reserves_the_report_witness :
  let run_it :=
    transformArgs sample_join sample_dirname sample_replace
      sample_tree_fetcher ["--autoload-file=vendor/autoload.php"]
      ["analyse"] "/tmp/x" "file:///src/a.php" "/src/a.php" sample_world in
  snd run_it = Ret ["analyse"; "-a"; "/tmp/x/autoload.php"] ∧
  snd (_getFileReport sample_parse {[ "/tmp/x/reported.json" := "report" ]}
         "file:///src/a.php" (w_hooks (fst run_it)))
  = JsReport {| timestamp := 1; data := [sample_record] |}.
Proof.
  intros run_it.
  pose proof (proj1 (transformArgs_reserves_the_report sample_join
                       sample_dirname sample_replace sample_tree_fetcher
                       sample_parse ["--autoload-file=vendor/autoload.php"]
                       ["analyse"] "/tmp/x" "file:///src/a.php" "/src/a.php"
                       sample_world)
                "tree fetcher" ltac:(vm_compute; reflexivity))
    as (H1&_&_&_&H5).
  split; [exact H1|].
  apply (H5 {[ "/tmp/x/reported.json" := "report" ]} "report"
           sample_reporterFile); vm_compute; reflexivity.
Defined.

(** A project check called on top of another: its caller waits, and
    returns when the check has timed out and wound up, also when a file
    check is chained and the manager is disposed in between. *)
Lemma checkProject_resolves_with_its_check_witness :
  let m := run sample_hash [CallCheckProject sample_docs] new_manager in
  let m1 := fst (checkProject sample_hash sample_docs m) in
  let w := snd (checkProject sample_hash sample_docs m) in
  let tr := [Step 1 Resumed; Chain "a.php" (ExtOp 0);
             Step 1 (GotConfig sample_config); CallDispose;
             Step 1 (Raced TimerFirst); Settle 0 true; Step 1 Resumed;
             Then 2; Step 1 Resumed] in
  resume m1 w ≠ Returned ∧
  resume (run_then 1 (run sample_hash tr m1)) w = Returned ∧
  resume (run sample_hash (check_sections 1 1 sample_config TimerFirst) m1) w
  = Returned.
Proof.
  intros m m1 w tr.
  pose proof (checkProject_resolves_with_its_check sample_hash
                [CallCheckProject sample_docs] tr sample_docs sample_config
                TimerFirst) as (H1&H2&_&H4).
  split; [exact H1|split; [|exact H4]].
  apply H2; vm_compute; reflexivity.
Defined.

Lemma dispose_then_any_notification_checks_witness :
  let m := run sample_hash [CallCheckProject sample_docs] new_manager in
  dispose (dispose m) = dispose m ∧
  checkProjectIfFileChanged sample_hash "a.php" None sample_docs (dispose m)
  = checkProject sample_hash sample_docs (dispose m).
Proof.
  intros m.
  pose proof (dispose_then_any_notification_checks sample_hash m "a.php" None
                sample_docs) as (H1&H2&_).
  split; [exact H1|exact H2].
Defined.

(** The guard of a finished check is still held after [clear]. *)
Lemma timeout_guards_are_never_released_witness :
  let m := run sample_hash (CallCheckProject sample_docs :: sample_completion 0)
             new_manager in
  _disposables m = [0] ∧ _disposables (clear m) = _disposables m.
Proof.
  intros m. split; [vm_compute; reflexivity|].
  exact (proj2 (proj2 (timeout_guards_are_never_released sample_hash [] m))).
Defined.

